(** * matchit: the pattern engine of [include/patterns.h]

    A shallow embedding of namespace [matchit::impl] and the properties of
    its matching algorithm.

    - Values are integers and (nested) tuples; the static type of a value
      is its shape, [typeOf].
    - A capture cell [Id] is a [shared_ptr] to a nullable pointer: every
      copy of an [Id] names the same cell.  The cells live in a store
      [gmap nat Z], keyed by the identity of the cell.
    - [matchPattern] returns [bool] and writes cells; the rest resolver
      throws [OooMatchBreak].  Both effects are explicit: a computation
      maps a store to an [Outcome].
    - A call for which overload resolution finds no rule (or whose
      instantiation fails) has outcome [NoRule]. *)

From Stdlib Require Import ZArith List Bool Lia.
From stdpp Require Import base option list gmap.

Local Open Scope Z_scope.
#[local] Set Warnings "-register-all".

(** ** Data model *)

Inductive Value : Type :=
| VInt (z : Z)
| VTuple (vs : list Value).

Inductive Ty : Type :=
| TInt
| TTuple (ts : list Ty).

Fixpoint typeOf (v : Value) : Ty :=
  match v with
  | VInt _ => TInt
  | VTuple vs => TTuple (map typeOf vs)
  end.

Definition isScalar (t : Ty) : bool :=
  match t with TInt => true | TTuple _ => false end.

(** The cells: [None] is the null [unique_ptr], [Some z] a committed value. *)
Abbreviation Store := (gmap nat Z).

(** The pattern classes.  [PLit] is a plain value used as a pattern (the
    primary [PatternTraits] template, [pattern == value]); a [Meet]
    predicate and an [App] projection act on integers; the guard of a
    [PostCheck] is a nullary closure over the cells, and may write them. *)
Inductive Pattern : Type :=
| PLit (z : Z)
| PWildcard
| POr (ps : list Pattern)
| PMeet (pred : Z -> bool)
| PApp (unary : Z -> Z) (p : Pattern)
| PAnd (ps : list Pattern)
| PNot (p : Pattern)
| PId (cell : nat)
| PDs (ps : list Pattern)
| POoo (p : Pattern)
| PPostCheck (p : Pattern) (pred : Store -> bool * Store).

(** [isOooV] *)
Definition isOoo (p : Pattern) : bool :=
  match p with POoo _ => true | _ => false end.

(** What a call leaves behind: a returned [bool], a thrown
    [OooMatchBreak], or no call at all. *)
Inductive Outcome : Type :=
| Ret (b : bool) (s : Store)
| OooMatchBreak (s : Store)
| NoRule.

Abbreviation Comp := (Store -> Outcome).

(** [a && b] and [a || b] on computations: the right operand runs only
    when the left one returned [true] (resp. [false]); an exception of
    the left operand passes through. *)
Definition andAlso (a b : Comp) : Comp :=
  fun s => match a s with Ret true s' => b s' | o => o end.

Definition orElse (a b : Comp) : Comp :=
  fun s => match a s with Ret false s' => b s' | o => o end.

(** ** [MatchFuncDefinedV]: does [matchPattern(value, pattern)] resolve? *)

Section StaticSequence.
Variable defined : Pattern -> Ty -> bool.

(** The [decltype] of [TupleMatchHelper<Values, Patterns>::tupleMatchImpl].
    An [Ooo] head resolves to the declaration of [tryOooMatch], which
    returns [bool] whatever its arguments are. *)
Fixpoint tupleMatchDefined (patterns : list Pattern) (t : Ty) : bool :=
  match patterns with
  | [] => true
  | p0 :: tl =>
      if isOoo p0 then true
      else match t with
           | TTuple (t0 :: ts) => defined p0 t0 && tupleMatchDefined tl (TTuple ts)
           | _ => false
           end
  end.
End StaticSequence.

Fixpoint MatchFuncDefined (p : Pattern) (t : Ty) {struct p} : bool :=
  match p with
  | PLit _ => isScalar t
  | PWildcard => true
  | POr ps => forallb (fun q => MatchFuncDefined q t) ps
  | PMeet _ => isScalar t
  | PApp _ q => isScalar t && MatchFuncDefined q TInt
  | PAnd ps => forallb (fun q => MatchFuncDefined q t) ps
  | PNot q => MatchFuncDefined q t
  | PId _ => isScalar t
  | PDs ps => tupleMatchDefined MatchFuncDefined ps t
  | POoo q =>
      match t with
      | TTuple ts => forallb (MatchFuncDefined q) ts
      | TInt => false
      end
  | PPostCheck q _ => MatchFuncDefined q t
  end.

(** ** The matching rules *)

Section Rules.
(** [matchPattern], as the rules below call it on their sub-patterns. *)
Variable matchp : Pattern -> Value -> Store -> Outcome.

(** [(matchPattern(value, patterns) || ...)] *)
Fixpoint orPatterns (patterns : list Pattern) (value : Value) : Comp :=
  match patterns with
  | [] => Ret false
  | p :: tl => orElse (matchp p value) (orPatterns tl value)
  end.

(** [(matchPattern(value, patterns) && ...)] *)
Fixpoint andPatterns (patterns : list Pattern) (value : Value) : Comp :=
  match patterns with
  | [] => Ret true
  | p :: tl => andAlso (matchp p value) (andPatterns tl value)
  end.

(** [PatternTraits<Ooo<Pattern>>::matchPatternImpl]:
    [(matchPattern(values, oooPat.pattern()) && ...)] *)
Fixpoint oooAll (single : Value -> Comp) (values : list Value) : Comp :=
  match values with
  | [] => Ret true
  | v :: tl => andAlso (single v) (oooAll single tl)
  end.

(** [PatternTraits<Ooo<Pattern>>::matchPatternImplSingle] *)
Definition matchPatternImplSingle (ooo : Pattern) (value : Value) : Comp :=
  match ooo with
  | POoo q => matchp q value
  | _ => fun _ => NoRule
  end.

Section OooSearch.
(** [get<0>(patterns)], an [Ooo], and [tryOooMatch(_, drop<1>(patterns))]. *)
Variable head : Pattern.
Variable rest : list Value -> Comp.

Definition tryOooMatchImplHelper (I : nat) (values : list Value) : Comp :=
  match I with
  | O => rest values
  | S i =>
      if MatchFuncDefined head (typeOf (VTuple (take I values))) then
        match values !! i with
        | Some v =>
            fun s =>
              match matchPatternImplSingle head v s with
              | Ret true s' => rest (drop I values) s'
              | Ret false s' => OooMatchBreak s'
              | o => o
              end
        | None => fun _ => NoRule
        end
      else OooMatchBreak
  end.

(** [((tryOooMatchImplHelper<I>(values, patterns)) || ...)] *)
Fixpoint oooFold (Is : list nat) (values : list Value) : Comp :=
  match Is with
  | [] => Ret false
  | K :: tl => orElse (tryOooMatchImplHelper K values) (oooFold tl values)
  end.

(** The [try] block and its handler. *)
Definition tryOooMatchImpl (values : list Value) (Is : list nat) : Comp :=
  fun s =>
    match oooFold Is values s with
    | OooMatchBreak s' => Ret false s'
    | o => o
    end.
End OooSearch.

Fixpoint tryOooMatch (patterns : list Pattern) (values : list Value)
  {struct patterns} : Comp :=
  match patterns with
  | [] => Ret (bool_decide (length values = 0%nat))
  | p0 :: tl =>
      if isOoo p0 then
        tryOooMatchImpl p0 (tryOooMatch tl) values (seq 0 (length values + 1))
      else
        match values with
        | v0 :: vs =>
            if MatchFuncDefined p0 (typeOf v0)
            then andAlso (matchp p0 v0) (tryOooMatch tl vs)
            else Ret false
        | [] => Ret false
        end
  end.

(** [TupleMatchHelper<Values, Patterns>::tupleMatchImpl].  The
    specialisation for an empty value tuple and a non-[Ooo] head is
    deleted. *)
Fixpoint tupleMatchImpl (patterns : list Pattern) (values : list Value)
  {struct patterns} : Comp :=
  match patterns with
  | [] => Ret (bool_decide (length values = 0%nat))
  | p0 :: tl =>
      if isOoo p0 then tryOooMatch patterns values
      else
        match values with
        | v0 :: vs => andAlso (matchp p0 v0) (tupleMatchImpl tl vs)
        | [] => fun _ => NoRule
        end
  end.
End Rules.

(** [PatternTraits<Pattern>::matchPatternImpl], one case per
    specialisation. *)
Fixpoint matchPatternImpl (p : Pattern) (value : Value) (s : Store)
  {struct p} : Outcome :=
  match p with
  | PLit z =>
      match value with
      | VInt x => Ret (Z.eqb z x) s
      | VTuple _ => NoRule
      end
  | PWildcard => Ret true s
  | POr ps => orPatterns matchPatternImpl ps value s
  | PMeet pred =>
      match value with
      | VInt x => Ret (pred x) s
      | VTuple _ => NoRule
      end
  | PApp unary q =>
      match value with
      | VInt x => matchPatternImpl q (VInt (unary x)) s
      | VTuple _ => NoRule
      end
  | PAnd ps => andPatterns matchPatternImpl ps value s
  | PNot q =>
      match matchPatternImpl q value s with
      | Ret b s' => Ret (negb b) s'
      | o => o
      end
  | PId cell =>
      (* Id::matchValue *)
      match value with
      | VInt x =>
          match s !! cell with
          | Some w => Ret (Z.eqb w x) s
          | None => Ret true (<[cell := x]> s)
          end
      | VTuple _ => NoRule
      end
  | PDs ps =>
      match value with
      | VTuple vs => tupleMatchImpl matchPatternImpl ps vs s
      | VInt _ =>
          (* [Ds<>] still resolves, to the rule that returns [false];
             [get<0>] and [std::tuple_size] need a tuple. *)
          match ps with
          | [] => Ret false s
          | _ :: _ => NoRule
          end
      end
  | POoo q =>
      match value with
      | VTuple vs => oooAll (matchPatternImpl q) vs s
      | VInt _ => NoRule
      end
  | PPostCheck q pred =>
      match matchPatternImpl q value s with
      | Ret true s' => let (b, s'') := pred s' in Ret b s''
      | o => o
      end
  end.

(** [matchPattern]: present in the overload set only where its trailing
    return type is well formed. *)
Definition matchPattern (value : Value) (p : Pattern) (s : Store) : Outcome :=
  if MatchFuncDefined p (typeOf value) then matchPatternImpl p value s else NoRule.

(** [resetId] with [PatternTraits<Pattern>::resetIdImpl]. *)
Fixpoint resetId (p : Pattern) (s : Store) {struct p} : Store :=
  match p with
  | PLit _ | PWildcard | PMeet _ => s
  | POr ps | PAnd ps | PDs ps => fold_left (fun s' q => resetId q s') ps s
  | PApp _ q | PNot q | POoo q | PPostCheck q _ => resetId q s
  | PId cell => delete cell s
  end.

(** [PatternPair<Pattern, Func>::matchValue] *)
Definition matchValue (value : Value) (p : Pattern) (s : Store) : Outcome :=
  matchPattern value p (resetId p s).

(** ** Instantiation

    [MatchFuncDefinedV] reads declarations only.  A call that resolves
    also instantiates the body of its rule, and with it every call that
    body makes outside a discarded [if constexpr] branch: all the helpers
    [tryOooMatchImplHelper<I>] of a fold, both operands of an [&&].
    [Instantiates p t] holds when [matchPattern] on a value of type [t]
    and the pattern [p] compiles. *)

Section StaticRules.
Variable inst : Pattern -> Ty -> bool.

Definition singleInstantiates (ooo : Pattern) (t : Ty) : bool :=
  match ooo with
  | POoo q => inst q t
  | _ => false
  end.

Definition helperInstantiates (head : Pattern) (rest : list Ty -> bool)
    (I : nat) (ts : list Ty) : bool :=
  match I with
  | O => rest ts
  | S i =>
      if MatchFuncDefined head (TTuple (take I ts)) then
        match ts !! i with
        | Some t => singleInstantiates head t && rest (drop I ts)
        | None => false
        end
      else true
  end.

Fixpoint tryOooMatchInstantiates (patterns : list Pattern) (ts : list Ty)
  {struct patterns} : bool :=
  match patterns with
  | [] => true
  | p0 :: tl =>
      if isOoo p0 then
        forallb (fun I => helperInstantiates p0 (tryOooMatchInstantiates tl) I ts)
          (seq 0 (length ts + 1))
      else
        match ts with
        | t0 :: ts' =>
            if MatchFuncDefined p0 t0
            then inst p0 t0 && tryOooMatchInstantiates tl ts'
            else true
        | [] => true
        end
  end.

Fixpoint tupleMatchInstantiates (patterns : list Pattern) (t : Ty)
  {struct patterns} : bool :=
  match patterns with
  | [] => true
  | p0 :: tl =>
      match t with
      | TTuple ts =>
          if isOoo p0 then tryOooMatchInstantiates patterns ts
          else
            match ts with
            | t0 :: ts' => inst p0 t0 && tupleMatchInstantiates tl (TTuple ts')
            | [] => false
            end
      | TInt => false
      end
  end.
End StaticRules.

Fixpoint Instantiates (p : Pattern) (t : Ty) {struct p} : bool :=
  match p with
  | PLit _ | PMeet _ | PId _ => isScalar t
  | PWildcard => true
  | POr ps | PAnd ps => forallb (fun q => Instantiates q t) ps
  | PApp _ q => isScalar t && Instantiates q TInt
  | PNot q | PPostCheck q _ => Instantiates q t
  | PDs ps => tupleMatchInstantiates Instantiates ps t
  | POoo q =>
      match t with
      | TTuple ts => forallb (Instantiates q) ts
      | TInt => false
      end
  end.

(** ** Induction on patterns, through the lists of [Or], [And] and [Ds] *)

Section PatternInduction.
Variable P : Pattern -> Prop.
Hypothesis HLit : forall z, P (PLit z).
Hypothesis HWildcard : P PWildcard.
Hypothesis HOr : forall ps, Forall P ps -> P (POr ps).
Hypothesis HMeet : forall pred, P (PMeet pred).
Hypothesis HApp : forall unary p, P p -> P (PApp unary p).
Hypothesis HAnd : forall ps, Forall P ps -> P (PAnd ps).
Hypothesis HNot : forall p, P p -> P (PNot p).
Hypothesis HId : forall cell, P (PId cell).
Hypothesis HDs : forall ps, Forall P ps -> P (PDs ps).
Hypothesis HOoo : forall p, P p -> P (POoo p).
Hypothesis HPostCheck : forall p pred, P p -> P (PPostCheck p pred).

Fixpoint Pattern_nested_ind (p : Pattern) : P p :=
  let all :=
    fix all (l : list Pattern) : Forall P l :=
      match l with
      | [] => List.Forall_nil P
      | q :: tl => List.Forall_cons P q tl (Pattern_nested_ind q) (all tl)
      end in
  match p with
  | PLit z => HLit z
  | PWildcard => HWildcard
  | POr ps => HOr ps (all ps)
  | PMeet pred => HMeet pred
  | PApp unary q => HApp unary q (Pattern_nested_ind q)
  | PAnd ps => HAnd ps (all ps)
  | PNot q => HNot q (Pattern_nested_ind q)
  | PId cell => HId cell
  | PDs ps => HDs ps (all ps)
  | POoo q => HOoo q (Pattern_nested_ind q)
  | PPostCheck q pred => HPostCheck q pred (Pattern_nested_ind q)
  end.
End PatternInduction.

(** ** Vocabulary of the properties *)

(** An outcome that is not a thrown [OooMatchBreak]. *)
Definition noBreak (o : Outcome) : Prop := forall s, o <> OooMatchBreak s.

(** An outcome that is a returned [bool]. *)
Definition returns (o : Outcome) : Prop := exists b s', o = Ret b s'.

Definition succeeds (o : Outcome) : bool :=
  match o with Ret true _ => true | _ => false end.

(** The cells named by the [Id]s of a pattern tree. *)
Fixpoint cells (p : Pattern) : list nat :=
  match p with
  | PLit _ | PWildcard | PMeet _ => []
  | POr ps | PAnd ps | PDs ps => flat_map cells ps
  | PApp _ q | PNot q | POoo q | PPostCheck q _ => cells q
  | PId cell => [cell]
  end.

(** What [resetId] does to each cell. *)
Definition resetSpec (p : Pattern) : Prop :=
  forall s c,
    (In c (cells p) -> resetId p s !! c = None)
    /\ (~ In c (cells p) -> resetId p s !! c = s !! c).

(** A pattern that writes no cell when matched in store [s]: each of its
    [Id]s is already committed there, and its guards only read. *)
Inductive readsOnly (s : Store) : Pattern -> Prop :=
| ro_Lit z : readsOnly s (PLit z)
| ro_Wildcard : readsOnly s PWildcard
| ro_Or ps : Forall (readsOnly s) ps -> readsOnly s (POr ps)
| ro_Meet pred : readsOnly s (PMeet pred)
| ro_App unary p : readsOnly s p -> readsOnly s (PApp unary p)
| ro_And ps : Forall (readsOnly s) ps -> readsOnly s (PAnd ps)
| ro_Not p : readsOnly s p -> readsOnly s (PNot p)
| ro_Id cell : is_Some (s !! cell) -> readsOnly s (PId cell)
| ro_Ds ps : Forall (readsOnly s) ps -> readsOnly s (PDs ps)
| ro_Ooo p : readsOnly s p -> readsOnly s (POoo p)
| ro_PostCheck p pred :
    readsOnly s p -> (forall s', snd (pred s') = s') ->
    readsOnly s (PPostCheck p pred).

(** A computation that, run in [s], returns and leaves [s] as it is, or
    has no rule. *)
Definition pureAt (s : Store) (c : Comp) : Prop :=
  c s = NoRule \/ exists b, c s = Ret b s.

(** Every alternative of an [Or] failed, one after the other. *)
Inductive allFail (v : Value) : list Pattern -> Store -> Store -> Prop :=
| allFail_nil s : allFail v [] s s
| allFail_cons p ps s s' s'' :
    matchPattern v p s = Ret false s' -> allFail v ps s' s'' ->
    allFail v (p :: ps) s s''.

(** *** The sequence rules as the design document words them *)

(** Fixed arity: the lengths agree and the elements match in order, the
    first failure ending the match. *)
Fixpoint fixedMatch (patterns : list Pattern) (values : list Value) : Comp :=
  match patterns, values with
  | [], [] => Ret true
  | p :: ps, v :: vs => andAlso (matchPattern v p) (fixedMatch ps vs)
  | _, _ => Ret false
  end.

(** One split of length [K]: the patterns before the rest element on
    their slots, the rest pattern on each of the next [K] elements, the
    patterns after it on what remains. *)
Definition splitAttempt (pre : list Pattern) (q : Pattern) (post : list Pattern)
    (values : list Value) (K : nat) : Comp :=
  andAlso (fixedMatch pre (take (length pre) values))
    (andAlso (oooAll (fun v => matchPattern v q) (take K (drop (length pre) values)))
       (fixedMatch post (drop (length pre + K) values))).

(** A split length [K] that the resolver accepts in store [s]: the
    first [K] values match the rest pattern, and [rest], the patterns
    after it, accept what remains. *)
Definition restSplit (s : Store) (q : Pattern) (rest : list Value -> Comp)
    (m : list Value) (K : nat) : Prop :=
  (K <= length m)%nat
  /\ Forall (fun v => matchPattern v q s = Ret true s) (take K m)
  /\ rest (drop K m) s = Ret true s.

(** The search that tries every split length from [0] to the remaining
    length, each on the store the search started with. *)
Definition exhaustiveSearch (pre : list Pattern) (q : Pattern) (post : list Pattern)
    (values : list Value) (s : Store) : bool :=
  existsb (fun K => succeeds (splitAttempt pre q post values K s))
    (seq 0 (length values - length pre + 1)).

(** The patterns after the rest element leave the cells as they were
    whenever they fail, in each store in which the search tries them:
    the store left by the patterns before the rest element and by the
    rest's sub-pattern on the first [K] remaining values. *)
Definition failsClean (pre : list Pattern) (q : Pattern) (post : list Pattern)
    (values : list Value) (s : Store) : Prop :=
  forall K s1 t t',
    (K <= length values - length pre)%nat ->
    fixedMatch pre (take (length pre) values) s = Ret true s1 ->
    oooAll (fun v => matchPattern v q) (take K (drop (length pre) values)) s1
    = Ret true t ->
    tryOooMatch matchPatternImpl post (drop (length pre + K) values) t
    = Ret false t' ->
    t' = t.

Definition isEven (z : Z) : bool := Z.even z.

(** ** Vocabulary of the further properties *)

(** [Id::value]: the committed value; the pointer is null ([None]) while
    the cell is uncommitted. *)
Definition value (cell : nat) (s : Store) : option Z := s !! cell.

(** Every conjunct of an [And] succeeded, one after the other. *)
Inductive allSucceed (v : Value) : list Pattern -> Store -> Store -> Prop :=
| allSucceed_nil s : allSucceed v [] s s
| allSucceed_cons p ps s s' s'' :
    matchPattern v p s = Ret true s' -> allSucceed v ps s' s'' ->
    allSucceed v (p :: ps) s s''.

(** A pattern whose guards only read the cells; its [Id]s are free to
    commit. *)
Inductive guardsRead : Pattern -> Prop :=
| gr_Lit z : guardsRead (PLit z)
| gr_Wildcard : guardsRead PWildcard
| gr_Or ps : Forall guardsRead ps -> guardsRead (POr ps)
| gr_Meet pred : guardsRead (PMeet pred)
| gr_App unary p : guardsRead p -> guardsRead (PApp unary p)
| gr_And ps : Forall guardsRead ps -> guardsRead (PAnd ps)
| gr_Not p : guardsRead p -> guardsRead (PNot p)
| gr_Id cell : guardsRead (PId cell)
| gr_Ds ps : Forall guardsRead ps -> guardsRead (PDs ps)
| gr_Ooo p : guardsRead p -> guardsRead (POoo p)
| gr_PostCheck p pred :
    guardsRead p -> (forall s', snd (pred s') = s') ->
    guardsRead (PPostCheck p pred).

(** From [s] to [s'] nothing changed but cells of [D] that were
    uncommitted in [s]. *)
Definition grows (D : nat -> Prop) (s s' : Store) : Prop :=
  forall c, is_Some (s !! c) \/ ~ D c -> s' !! c = s !! c.

Definition outcomeGrows (D : nat -> Prop) (s : Store) (o : Outcome) : Prop :=
  match o with
  | Ret _ s' | OooMatchBreak s' => grows D s s'
  | NoRule => True
  end.

(** * Properties *)

(** ** The [static_assert]s of the header, on the embedding *)

(** Integers stand for [char], [int] and the other arithmetic types. *)
Example static_asserts :
  let char := PLit 0 in
  let id := PId 0 in
  let T := TTuple in
  MatchFuncDefined PWildcard (T []) = true
  /\ MatchFuncDefined (PDs []) (T []) = true
  /\ MatchFuncDefined (PDs [char]) (T []) = false
  /\ MatchFuncDefined (PDs [char; PDs [char; id]; char])
       (T [TInt; T [TInt; TInt]; TInt]) = true
  /\ MatchFuncDefined (PDs [char; PDs [char; id]; char]) TInt = false
  /\ MatchFuncDefined char TInt = true
  /\ MatchFuncDefined (PDs [char]) (T [TInt]) = true
  /\ MatchFuncDefined (PDs [char; char; PDs [char; PDs [char; id]; char]])
       (T [TInt; TInt; T [TInt; T [TInt; TInt]; TInt]]) = true
  /\ MatchFuncDefined id TInt = true
  /\ MatchFuncDefined (PDs [char; PDs [id]; char])
       (T [TInt; T [TInt; TInt]; TInt]) = true
  /\ MatchFuncDefined (PDs [char; PDs [PWildcard; id]; char])
       (T [TInt; T [TInt; TInt]; TInt]) = true
  /\ MatchFuncDefined char (T [TInt]) = false
  /\ MatchFuncDefined (POoo char) (T [TInt]) = true
  /\ MatchFuncDefined PWildcard (T [TInt]) = true
  /\ MatchFuncDefined (PDs [POoo char]) (T [TInt; TInt; TInt; TInt; TInt]) = true.
Proof. cbv zeta. repeat split. Qed.

(** ** The exception stays inside the resolver *)

Lemma andAlso_noBreak (a b : Comp) s :
  noBreak (a s) -> (forall s', noBreak (b s')) -> noBreak (andAlso a b s).
Proof.
  unfold andAlso. intros Ha Hb. destruct (a s) as [[|] s'| s'|]; auto.
Qed.

Lemma orElse_noBreak (a b : Comp) s :
  noBreak (a s) -> (forall s', noBreak (b s')) -> noBreak (orElse a b s).
Proof.
  unfold orElse. intros Ha Hb. destruct (a s) as [[|] s'| s'|]; auto.
Qed.

Lemma tryOooMatchImpl_noBreak matchp head rest values Is s :
  noBreak (tryOooMatchImpl matchp head rest values Is s).
Proof.
  unfold tryOooMatchImpl, noBreak.
  destruct (oooFold matchp head rest Is values s); congruence.
Qed.

Section NoBreakRules.
Variable matchp : Pattern -> Value -> Store -> Outcome.

Let quiet (p : Pattern) : Prop := forall v s, noBreak (matchp p v s).

Lemma orPatterns_noBreak ps v s :
  Forall quiet ps -> noBreak (orPatterns matchp ps v s).
Proof.
  intros H. revert s. induction H as [|p tl Hp _ IH]; intros s; simpl.
  - intros s'. discriminate.
  - apply orElse_noBreak; auto.
Qed.

Lemma andPatterns_noBreak ps v s :
  Forall quiet ps -> noBreak (andPatterns matchp ps v s).
Proof.
  intros H. revert s. induction H as [|p tl Hp _ IH]; intros s; simpl.
  - intros s'. discriminate.
  - apply andAlso_noBreak; auto.
Qed.

Lemma oooAll_noBreak q vs s :
  quiet q -> noBreak (oooAll (matchp q) vs s).
Proof.
  intros Hq. revert s. induction vs as [|v tl IH]; intros s; simpl.
  - intros s'. discriminate.
  - apply andAlso_noBreak; auto.
Qed.

Lemma tryOooMatch_noBreak ps vs s :
  Forall quiet ps -> noBreak (tryOooMatch matchp ps vs s).
Proof.
  intros H. revert vs s. induction H as [|p tl Hp _ IH]; intros vs s; simpl.
  - intros s'. discriminate.
  - destruct (isOoo p).
    + apply tryOooMatchImpl_noBreak.
    + destruct vs as [|v0 vs]; [intros s'; discriminate|].
      destruct (MatchFuncDefined p (typeOf v0)); [|intros s'; discriminate].
      apply andAlso_noBreak; auto.
Qed.

Lemma tupleMatchImpl_noBreak ps vs s :
  Forall quiet ps -> noBreak (tupleMatchImpl matchp ps vs s).
Proof.
  intros H. revert vs s. induction H as [|p tl Hp Htl IH]; intros vs s.
  - simpl. intros s'. discriminate.
  - cbn [tupleMatchImpl]. destruct (isOoo p).
    + apply tryOooMatch_noBreak. constructor; assumption.
    + destruct vs as [|v0 vs]; [intros s'; discriminate|].
      apply andAlso_noBreak; auto.
Qed.
End NoBreakRules.

Lemma matchPatternImpl_noBreak p : forall v s, noBreak (matchPatternImpl p v s).
Proof.
  induction p using Pattern_nested_ind; intros v s; cbn [matchPatternImpl].
  - destruct v; intros s'; discriminate.
  - intros s'; discriminate.
  - apply orPatterns_noBreak; assumption.
  - destruct v; intros s'; discriminate.
  - destruct v; [apply IHp | intros s'; discriminate].
  - apply andPatterns_noBreak; assumption.
  - intros s' E. destruct (matchPatternImpl p v s) as [b s1|s1|] eqn:Hq;
      try discriminate.
    exact (IHp v s s1 Hq).
  - destruct v; [|intros s'; discriminate].
    destruct (s !! cell); intros s'; discriminate.
  - destruct v as [z|vs].
    + destruct ps; intros s'; discriminate.
    + apply tupleMatchImpl_noBreak; assumption.
  - destruct v; [intros s'; discriminate|].
    apply oooAll_noBreak; assumption.
  - intros s' E. destruct (matchPatternImpl p v s) as [[|] s1|s1|] eqn:Hq;
      try discriminate.
    + destruct (pred s1); discriminate.
    + exact (IHp v s s1 Hq).
Qed.

(** ** The public entry point and the single rules *)

Lemma matchPattern_defined v p s :
  MatchFuncDefined p (typeOf v) = true ->
  matchPattern v p s = matchPatternImpl p v s.
Proof. unfold matchPattern. intros ->. reflexivity. Qed.

Lemma matchPattern_undefined v p s :
  MatchFuncDefined p (typeOf v) = false -> matchPattern v p s = NoRule.
Proof. unfold matchPattern. intros ->. reflexivity. Qed.

Lemma matchPattern_returns v p s b s' :
  matchPattern v p s = Ret b s' ->
  MatchFuncDefined p (typeOf v) = true /\ matchPatternImpl p v s = Ret b s'.
Proof.
  unfold matchPattern. destruct (MatchFuncDefined p (typeOf v)); [auto | discriminate].
Qed.

Lemma matchPattern_noBreak v p s : noBreak (matchPattern v p s).
Proof.
  unfold matchPattern. destruct (MatchFuncDefined p (typeOf v)).
  - apply matchPatternImpl_noBreak.
  - intros s'. discriminate.
Qed.

(** C4.  Capture consistency of [Id::matchValue]: matching an uncommitted
    cell commits the value and returns true; matching a committed cell
    returns whether the new value equals the committed one and leaves the
    cell alone, so a second match after a commit of [z] returns
    [z == z'].  [ds(x, x)] succeeds on (3, 3), fails on (3, 4), and after
    [resetId] succeeds on (4, 4). *)
Theorem C4_capture_consistency :
  (forall cell z s,
      matchPattern (VInt z) (PId cell) s =
        match s !! cell with
        | None => Ret true (<[cell := z]> s)
        | Some w => Ret (Z.eqb w z) s
        end)
  /\ (forall cell z z' s,
        matchPattern (VInt z') (PId cell) (<[cell := z]> s) =
          Ret (Z.eqb z z') (<[cell := z]> s))
  /\ matchPattern (VTuple [VInt 3; VInt 3]) (PDs [PId 0; PId 0]) ∅
     = Ret true {[ 0%nat := 3 ]}
  /\ matchPattern (VTuple [VInt 3; VInt 4]) (PDs [PId 0; PId 0]) ∅
     = Ret false {[ 0%nat := 3 ]}
  /\ matchPattern (VTuple [VInt 4; VInt 4]) (PDs [PId 0; PId 0])
       (resetId (PDs [PId 0; PId 0]) {[ 0%nat := 3 ]})
     = Ret true {[ 0%nat := 4 ]}.
Proof.
  split; [|split; [|split; [|split]]].
  - intros cell z s. reflexivity.
  - intros cell z z' s. unfold matchPattern. cbn.
    rewrite lookup_insert_eq. reflexivity.
  - vm_compute. reflexivity.
  - vm_compute. reflexivity.
  - vm_compute. reflexivity.
Qed.

(** C3, as the code has it.  [Not] returns the negation of its
    sub-pattern's result and leaves the cells exactly as the evaluation
    of the sub-pattern left them: nothing is reset by matching.  So
    [not_(x)] on an uncommitted [x] returns false and leaves [x]
    committed to the value.  The cells under a [Not] are cleared by
    [resetId], which descends into it. *)
Theorem C3_not_keeps_cells :
  (forall v p s,
      matchPattern v (PNot p) s =
        match matchPattern v p s with
        | Ret b s' => Ret (negb b) s'
        | o => o
        end)
  /\ (forall cell z s,
        s !! cell = None ->
        matchPattern (VInt z) (PNot (PId cell)) s = Ret false (<[cell := z]> s))
  /\ (forall p s, resetId (PNot p) s = resetId p s).
Proof.
  split; [|split].
  - intros v p s. unfold matchPattern. cbn [MatchFuncDefined matchPatternImpl].
    destruct (MatchFuncDefined p (typeOf v)); reflexivity.
  - intros cell z s H. unfold matchPattern. cbn. rewrite H. reflexivity.
  - reflexivity.
Qed.

Lemma C3_not_keeps_cells_witness :
  matchPattern (VInt 3) (PNot (PId 0)) ∅ = Ret false (<[ 0%nat := 3 ]> ∅).
Proof.
  apply (proj1 (proj2 C3_not_keeps_cells)). reflexivity.
Defined.

(** C3 as stated fails: after [not_(x)] is matched against 3 with [x]
    uncommitted, the match returned false and [x] holds 3. *)
Lemma C3_counterexample :
  exists b s',
    matchPattern (VInt 3) (PNot (PId 0)) ∅ = Ret b s'
    /\ In 0%nat (cells (PId 0))
    /\ s' !! 0%nat = Some 3.
Proof.
  exists false, {[ 0%nat := 3 ]}. split; [|split].
  - vm_compute. reflexivity.
  - simpl. auto.
  - vm_compute. reflexivity.
Qed.

(** C6.  [PostCheck]: the inner pattern runs first.  When it fails the
    result is its failure, whatever the guard is (the guard is not
    called); when it succeeds the guard is called on the cells it left,
    and the result is the guard's.  So the match returns true exactly
    when both do, and a cell committed by the inner pattern is still
    committed after a guard that returned false without writing. *)
Theorem C6_postcheck v p g s :
  (forall s', matchPattern v p s = Ret false s' ->
      matchPattern v (PPostCheck p g) s = Ret false s')
  /\ (forall s', matchPattern v p s = Ret true s' ->
        matchPattern v (PPostCheck p g) s = Ret (fst (g s')) (snd (g s')))
  /\ (forall s'', matchPattern v (PPostCheck p g) s = Ret true s'' <->
        exists s', matchPattern v p s = Ret true s' /\ g s' = (true, s''))
  /\ (forall s' cell z,
        matchPattern v p s = Ret true s' -> g s' = (false, s') ->
        s' !! cell = Some z ->
        exists s'', matchPattern v (PPostCheck p g) s = Ret false s''
                    /\ s'' !! cell = Some z).
Proof.
  assert (E : matchPattern v (PPostCheck p g) s =
              match matchPattern v p s with
              | Ret true s' => Ret (fst (g s')) (snd (g s'))
              | o => o
              end).
  { unfold matchPattern. cbn [MatchFuncDefined matchPatternImpl].
    destruct (MatchFuncDefined p (typeOf v)); [|reflexivity].
    destruct (matchPatternImpl p v s) as [[|] s1|s1|]; try reflexivity.
    destruct (g s1); reflexivity. }
  rewrite E. split; [|split; [|split; [intros s''; split|]]].
  - intros s' ->. reflexivity.
  - intros s' ->. reflexivity.
  - destruct (matchPattern v p s) as [[|] s1|s1|]; try discriminate.
    intros [= Hb Hs]. exists s1. split; [reflexivity|].
    destruct (g s1); simpl in *; congruence.
  - intros (s' & -> & Hg). rewrite Hg. reflexivity.
  - intros s' cell z -> Hg Hc. rewrite Hg. simpl. eauto.
Qed.

Lemma C6_postcheck_witness :
  exists s'',
    matchPattern (VInt 7) (PPostCheck (PId 0) (fun s => (false, s))) ∅
      = Ret false s''
    /\ s'' !! 0%nat = Some 7.
Proof.
  apply (proj2 (proj2 (proj2
           (C6_postcheck (VInt 7) (PId 0) (fun s => (false, s)) ∅)))
         {[ 0%nat := 7 ]} 0%nat 7).
  - vm_compute. reflexivity.
  - reflexivity.
  - vm_compute. reflexivity.
Defined.

(** ** [Or]: left to right, stopping at the first success *)

Lemma matchPattern_or_nil v s : matchPattern v (POr []) s = Ret false s.
Proof. reflexivity. Qed.

Lemma MatchFuncDefined_or_cons p ps t :
  MatchFuncDefined (POr (p :: ps)) t = true ->
  MatchFuncDefined p t = true /\ MatchFuncDefined (POr ps) t = true.
Proof. cbn [MatchFuncDefined forallb]. apply andb_prop. Qed.

Lemma matchPattern_or_cons v p ps s :
  MatchFuncDefined (POr (p :: ps)) (typeOf v) = true ->
  matchPattern v (POr (p :: ps)) s
  = orElse (matchPattern v p) (matchPattern v (POr ps)) s.
Proof.
  intros H. unfold matchPattern at 1. rewrite H.
  apply MatchFuncDefined_or_cons in H as [Hp Hps].
  unfold matchPattern, orElse. rewrite Hp, Hps. reflexivity.
Qed.

Lemma or_first_success v p ps2 s1 s2 ps1 : forall s,
  MatchFuncDefined (POr (ps1 ++ p :: ps2)) (typeOf v) = true ->
  allFail v ps1 s s1 ->
  matchPattern v p s1 = Ret true s2 ->
  matchPattern v (POr (ps1 ++ p :: ps2)) s = Ret true s2.
Proof.
  induction ps1 as [|q ps1 IH]; intros s Hdef Hfail Hp;
    inversion Hfail as [|? ? ? s0 ? H1 Htl]; subst.
  - cbn [app] in *. rewrite (matchPattern_or_cons _ _ _ _ Hdef).
    unfold orElse. rewrite Hp. reflexivity.
  - cbn [app] in *. rewrite (matchPattern_or_cons _ _ _ _ Hdef).
    apply MatchFuncDefined_or_cons in Hdef as [_ Hdef].
    unfold orElse. rewrite H1. apply IH; assumption.
Qed.

Lemma or_success_inv v ps : forall s s2,
  MatchFuncDefined (POr ps) (typeOf v) = true ->
  matchPattern v (POr ps) s = Ret true s2 ->
  exists ps1 p ps2 s1,
    ps = ps1 ++ p :: ps2 /\ allFail v ps1 s s1
    /\ matchPattern v p s1 = Ret true s2.
Proof.
  induction ps as [|q ps IH]; intros s s2 Hdef H.
  - rewrite matchPattern_or_nil in H. discriminate.
  - rewrite (matchPattern_or_cons _ _ _ _ Hdef) in H.
    apply MatchFuncDefined_or_cons in Hdef as [_ Hdef]. unfold orElse in H.
    destruct (matchPattern v q s) as [[|] s1|s1|] eqn:Hq; try discriminate.
    + injection H as ->. exists [], q, ps, s. repeat split; [constructor|exact Hq].
    + destruct (IH s1 s2 Hdef H) as (ps1 & p & ps2 & s1' & -> & Hf & Hp).
      exists (q :: ps1), p, ps2, s1'. split; [reflexivity|].
      split; [econstructor; eassumption | exact Hp].
Qed.

Lemma or_failure_iff v ps : forall s s',
  MatchFuncDefined (POr ps) (typeOf v) = true ->
  matchPattern v (POr ps) s = Ret false s' <-> allFail v ps s s'.
Proof.
  induction ps as [|q ps IH]; intros s s' Hdef.
  - rewrite matchPattern_or_nil. split.
    + intros [= ->]. constructor.
    + intros H. inversion H. reflexivity.
  - rewrite (matchPattern_or_cons _ _ _ _ Hdef).
    apply MatchFuncDefined_or_cons in Hdef as [_ Hdef]. unfold orElse. split.
    + destruct (matchPattern v q s) as [[|] s1|s1|] eqn:Hq; try discriminate.
      intros H. econstructor; [exact Hq|]. apply IH; assumption.
    + intros H. inversion H as [|? ? ? s1 ? Hq Htl]; subst.
      rewrite Hq. apply IH; assumption.
Qed.

(** C7.  [Or] tries its alternatives from left to right.  When the
    alternatives before [p] have failed in turn and [p] succeeds, the
    match returns true with the cells as [p] left them, whatever follows
    [p] in the list: the later alternatives are not evaluated.  A true
    result always arises this way, and the result is false exactly when
    every alternative has failed in turn. *)
Theorem C7_or_short_circuit v ps s :
  MatchFuncDefined (POr ps) (typeOf v) = true ->
  (forall ps1 p ps2 s1 s2,
      ps = ps1 ++ p :: ps2 -> allFail v ps1 s s1 ->
      matchPattern v p s1 = Ret true s2 ->
      matchPattern v (POr ps) s = Ret true s2)
  /\ (forall s2, matchPattern v (POr ps) s = Ret true s2 ->
        exists ps1 p ps2 s1,
          ps = ps1 ++ p :: ps2 /\ allFail v ps1 s s1
          /\ matchPattern v p s1 = Ret true s2)
  /\ (forall s', matchPattern v (POr ps) s = Ret false s' <-> allFail v ps s s').
Proof.
  intros Hdef. split; [|split].
  - intros ps1 p ps2 s1 s2 -> Hf Hp. eapply or_first_success; eassumption.
  - intros s2. apply or_success_inv. exact Hdef.
  - intros s'. apply or_failure_iff. exact Hdef.
Qed.

(** The third alternative would commit cell 0; it is never reached. *)
Lemma C7_or_short_circuit_witness :
  MatchFuncDefined (POr [PLit 1; PWildcard; PId 0]) (typeOf (VInt 3)) = true
  /\ matchPattern (VInt 3) (POr [PLit 1; PWildcard; PId 0]) ∅ = Ret true ∅.
Proof.
  split; [reflexivity|].
  apply (proj1 (C7_or_short_circuit (VInt 3) [PLit 1; PWildcard; PId 0] ∅ eq_refl)
           [PLit 1] PWildcard [PId 0] ∅ ∅ eq_refl).
  - apply (allFail_cons _ (PLit 1) [] ∅ ∅ ∅); [reflexivity | constructor].
  - reflexivity.
Defined.

(** ** [resetId] *)

Lemma resetId_fold ps :
  Forall resetSpec ps ->
  forall s c,
    (In c (flat_map cells ps) ->
       fold_left (fun s' q => resetId q s') ps s !! c = None)
    /\ (~ In c (flat_map cells ps) ->
          fold_left (fun s' q => resetId q s') ps s !! c = s !! c).
Proof.
  induction 1 as [|q tl Hq _ IH]; intros s c; cbn [flat_map fold_left].
  - split; [intros [] | reflexivity].
  - destruct (IH (resetId q s) c) as [IHin IHout].
    destruct (Hq s c) as [Hin Hout]. split.
    + intros H. destruct (in_dec Nat.eq_dec c (flat_map cells tl)) as [Ht|Ht].
      * apply IHin, Ht.
      * rewrite (IHout Ht). apply Hin.
        apply in_app_or in H as [H|H]; [exact H | contradiction].
    + intros H. rewrite IHout, Hout; [reflexivity| |];
        intros Hc; apply H, in_or_app; auto.
Qed.

Lemma resetId_lookup p : resetSpec p.
Proof.
  induction p using Pattern_nested_ind; unfold resetSpec;
    cbn [resetId cells]; try (apply resetId_fold; assumption);
    try assumption;
    try (intros s c; split; [intros [] | reflexivity]).
  intros s c. split.
  - intros [->|[]]. apply lookup_delete_eq.
  - intros H. apply lookup_delete_ne. intros ->. apply H. left. reflexivity.
Qed.

(** C9.  [resetId] clears every cell of the pattern tree: whatever the
    nesting of [Or], [And], [Not], [App], [Ds], [Ooo] and [PostCheck]
    above an [Id], its cell is uncommitted after the call. *)
Theorem C9_resetId_clears p s c :
  In c (cells p) -> resetId p s !! c = None.
Proof. apply resetId_lookup. Qed.

Lemma C9_resetId_clears_witness :
  resetId
    (PDs [POr [PId 1; PLit 0];
          POoo (PApp Z.succ (PPostCheck (PNot (PAnd [PWildcard; PId 2]))
                               (fun s => (true, s))))])
    {[ 1%nat := 10; 2%nat := 20 ]} !! 2%nat = None.
Proof.
  apply C9_resetId_clears. simpl. auto.
Defined.

(** C10.  [PatternPair::matchValue] resets the cells of the arm's
    pattern and then matches: every cell of the pattern is uncommitted
    when matching starts, so the result does not depend on what earlier
    attempts left in those cells.  An arm [ds(x, x)] that failed on
    (3, 4) succeeds on (4, 4) at the next use, which a bare
    [matchPattern] on the stale cells does not. *)
Theorem C10_arm_resets_first v p s :
  matchValue v p s = matchPattern v p (resetId p s)
  /\ (forall c, In c (cells p) -> resetId p s !! c = None)
  /\ (forall s2, (forall c, ~ In c (cells p) -> s !! c = s2 !! c) ->
        matchValue v p s = matchValue v p s2)
  /\ (matchValue (VTuple [VInt 3; VInt 4]) (PDs [PId 0; PId 0]) ∅
        = Ret false {[ 0%nat := 3 ]}
      /\ matchValue (VTuple [VInt 4; VInt 4]) (PDs [PId 0; PId 0]) {[ 0%nat := 3 ]}
        = Ret true {[ 0%nat := 4 ]}
      /\ matchPattern (VTuple [VInt 4; VInt 4]) (PDs [PId 0; PId 0]) {[ 0%nat := 3 ]}
        = Ret false {[ 0%nat := 3 ]}).
Proof.
  split; [reflexivity|]. split; [|split].
  - intros c. apply resetId_lookup.
  - intros s2 H. unfold matchValue. f_equal. apply map_eq. intros c.
    destruct (in_dec Nat.eq_dec c (cells p)) as [Hc|Hc].
    + rewrite (proj1 (resetId_lookup p s c) Hc).
      rewrite (proj1 (resetId_lookup p s2 c) Hc). reflexivity.
    + rewrite (proj2 (resetId_lookup p s c) Hc).
      rewrite (proj2 (resetId_lookup p s2 c) Hc). apply H, Hc.
  - split; [|split]; vm_compute; reflexivity.
Qed.

Lemma C10_arm_resets_first_witness :
  matchValue (VInt 5) (PId 0) {[ 0%nat := 3 ]} = matchValue (VInt 5) (PId 0) ∅.
Proof.
  apply (proj1 (proj2 (proj2
           (C10_arm_resets_first (VInt 5) (PId 0) {[ 0%nat := 3 ]})))).
  intros c Hc. simpl in Hc.
  destruct (Nat.eq_dec c 0%nat) as [->|Hne]; [exfalso; auto|].
  rewrite lookup_empty. apply lookup_singleton_ne. auto.
Defined.

(** ** Fixed-arity sequences *)

Lemma tupleMatchDefined_take ps : forall vs,
  Forall (fun p => isOoo p = false) ps ->
  (length ps <= length vs)%nat ->
  MatchFuncDefined (PDs ps) (typeOf (VTuple vs))
  = MatchFuncDefined (PDs ps) (typeOf (VTuple (take (length ps) vs))).
Proof.
  induction ps as [|p tl IH]; intros vs Hno Hlen; [reflexivity|].
  inversion Hno as [|? ? Hp Htl]; subst.
  destruct vs as [|v0 vs]; [simpl in Hlen; lia|].
  specialize (IH vs Htl ltac:(simpl in Hlen; lia)).
  cbn [MatchFuncDefined typeOf map tupleMatchDefined length take] in *.
  rewrite Hp, IH. reflexivity.
Qed.

Lemma tupleMatchImpl_longer ps : forall vs s,
  Forall (fun p => isOoo p = false) ps ->
  (length ps < length vs)%nat ->
  tupleMatchImpl matchPatternImpl ps vs s
  = match tupleMatchImpl matchPatternImpl ps (take (length ps) vs) s with
    | Ret true s' => Ret false s'
    | o => o
    end.
Proof.
  induction ps as [|p tl IH]; intros vs s Hno Hlen.
  - destruct vs; [simpl in Hlen; lia | reflexivity].
  - inversion Hno as [|? ? Hp Htl]; subst.
    destruct vs as [|v0 vs]; [simpl in Hlen; lia|].
    cbn [tupleMatchImpl length take]. rewrite Hp. unfold andAlso.
    destruct (matchPatternImpl p v0 s) as [[|] s1|s1|]; try reflexivity.
    apply IH; [assumption | simpl in Hlen; lia].
Qed.

Lemma tupleMatchDefined_shorter ps : forall vs,
  Forall (fun p => isOoo p = false) ps ->
  (length vs < length ps)%nat ->
  MatchFuncDefined (PDs ps) (typeOf (VTuple vs)) = false.
Proof.
  induction ps as [|p tl IH]; intros vs Hno Hlen; [simpl in Hlen; lia|].
  inversion Hno as [|? ? Hp Htl]; subst.
  destruct vs as [|v0 vs].
  - cbn [MatchFuncDefined typeOf map tupleMatchDefined]. rewrite Hp. reflexivity.
  - specialize (IH vs Htl ltac:(simpl in Hlen; lia)).
    cbn [MatchFuncDefined typeOf map tupleMatchDefined] in *.
    rewrite Hp, IH. apply andb_false_r.
Qed.

(** ** Patterns that only read the cells *)

Lemma pureAt_andAlso s (a b : Comp) :
  pureAt s a -> pureAt s b -> pureAt s (andAlso a b).
Proof.
  unfold pureAt, andAlso. intros [->|[[|] ->]] Hb; eauto.
Qed.

Lemma pureAt_orElse s (a b : Comp) :
  pureAt s a -> pureAt s b -> pureAt s (orElse a b).
Proof.
  unfold pureAt, orElse. intros [->|[[|] ->]] Hb; eauto.
Qed.

Lemma pureAt_Ret s b : pureAt s (Ret b).
Proof. right. eauto. Qed.

Lemma oooAll_pure s (single : Value -> Comp) vs :
  (forall v, pureAt s (single v)) -> pureAt s (oooAll single vs).
Proof.
  intros H. induction vs as [|v tl IH]; cbn [oooAll].
  - apply pureAt_Ret.
  - apply pureAt_andAlso; auto.
Qed.

Section PureRules.
Variable matchp : Pattern -> Value -> Store -> Outcome.
Variable s : Store.

Let pureP (p : Pattern) : Prop :=
  (forall v, pureAt s (matchp p v))
  /\ (forall v, pureAt s (matchPatternImplSingle matchp p v)).

Lemma orPatterns_pure ps v :
  Forall pureP ps -> pureAt s (orPatterns matchp ps v).
Proof.
  induction 1 as [|p tl [Hp _] _ IH]; cbn [orPatterns].
  - apply pureAt_Ret.
  - apply pureAt_orElse; auto.
Qed.

Lemma andPatterns_pure ps v :
  Forall pureP ps -> pureAt s (andPatterns matchp ps v).
Proof.
  induction 1 as [|p tl [Hp _] _ IH]; cbn [andPatterns].
  - apply pureAt_Ret.
  - apply pureAt_andAlso; auto.
Qed.

(** The helper for one split length returns in [s], throws in [s], or
    has no rule. *)
Lemma tryOooMatchImplHelper_calm head (rest : list Value -> Comp) I values :
  (forall v, pureAt s (matchPatternImplSingle matchp head v)) ->
  (forall vs, pureAt s (rest vs)) ->
  pureAt s (tryOooMatchImplHelper matchp head rest I values)
  \/ tryOooMatchImplHelper matchp head rest I values s = OooMatchBreak s.
Proof.
  intros Hsingle Hrest. destruct I as [|i]; cbn [tryOooMatchImplHelper].
  - left. apply Hrest.
  - destruct (MatchFuncDefined head _); [|right; reflexivity].
    destruct (values !! i) as [v|]; [|left; left; reflexivity].
    destruct (Hsingle v) as [E|[[|] E]]; unfold pureAt; cbn beta; rewrite E.
    + left. left. reflexivity.
    + left. apply Hrest.
    + right. reflexivity.
Qed.

Lemma tryOooMatchImpl_pure head (rest : list Value -> Comp) values Is :
  (forall v, pureAt s (matchPatternImplSingle matchp head v)) ->
  (forall vs, pureAt s (rest vs)) ->
  pureAt s (tryOooMatchImpl matchp head rest values Is).
Proof.
  intros Hsingle Hrest. unfold tryOooMatchImpl.
  assert (H : pureAt s (oooFold matchp head rest Is values)
              \/ oooFold matchp head rest Is values s = OooMatchBreak s).
  { induction Is as [|K tl IH]; cbn [oooFold].
    - left. apply pureAt_Ret.
    - unfold orElse.
      destruct (tryOooMatchImplHelper_calm head rest K values Hsingle Hrest)
        as [[E|[[|] E]]|E]; unfold pureAt in *; cbn beta; rewrite E.
      + left. left. reflexivity.
      + left. right. eauto.
      + exact IH.
      + right. reflexivity. }
  destruct H as [[E|[b E]]|E]; unfold pureAt; rewrite E; eauto.
Qed.

Lemma tryOooMatch_pure ps : forall vs,
  Forall pureP ps -> pureAt s (tryOooMatch matchp ps vs).
Proof.
  induction ps as [|p tl IH]; intros vs H; cbn [tryOooMatch].
  - apply pureAt_Ret.
  - inversion H as [|? ? [Hp Hsingle] Htl]; subst.
    destruct (isOoo p).
    + apply tryOooMatchImpl_pure; auto.
    + destruct vs as [|v0 vs]; [apply pureAt_Ret|].
      destruct (MatchFuncDefined p (typeOf v0)); [|apply pureAt_Ret].
      apply pureAt_andAlso; auto.
Qed.

Lemma tupleMatchImpl_pure ps : forall vs,
  Forall pureP ps -> pureAt s (tupleMatchImpl matchp ps vs).
Proof.
  induction ps as [|p tl IH]; intros vs H.
  - cbn [tupleMatchImpl]. apply pureAt_Ret.
  - cbn [tupleMatchImpl]. destruct (isOoo p).
    + apply tryOooMatch_pure. exact H.
    + inversion H as [|? ? [Hp _] Htl]; subst.
      destruct vs as [|v0 vs]; [left; reflexivity|].
      apply pureAt_andAlso; auto.
Qed.
End PureRules.

(** What holds of [ooo(q)] on a one-element tuple holds of [q] on the
    element. *)
Lemma pureAt_ooo_single s q :
  (forall v, pureAt s (matchPatternImpl (POoo q) v)) ->
  forall v, pureAt s (matchPatternImpl q v).
Proof.
  intros H v. specialize (H (VTuple [v])).
  cbn [matchPatternImpl oooAll] in H. unfold pureAt, andAlso in *.
  pose proof (matchPatternImpl_noBreak q v s) as Hnb.
  destruct (matchPatternImpl q v s) as [[|] s1|s1|].
  - destruct H as [H|[b H]]; [discriminate|]. injection H as _ ->. eauto.
  - destruct H as [H|[b H]]; [discriminate|]. injection H as _ ->. eauto.
  - exfalso. exact (Hnb s1 eq_refl).
  - auto.
Qed.

Lemma pure_elements s ps :
  Forall (fun p => readsOnly s p -> forall v, pureAt s (matchPatternImpl p v)) ps ->
  Forall (readsOnly s) ps ->
  Forall (fun p => (forall v, pureAt s (matchPatternImpl p v))
                   /\ (forall v, pureAt s (matchPatternImplSingle matchPatternImpl p v)))
    ps.
Proof.
  intros IH Hro. induction Hro as [|p tl Hp _ IHtl];
    inversion IH as [|? ? Hp' Htl']; subst; constructor; auto.
  specialize (Hp' Hp). split; [exact Hp'|].
  destruct p; try (intros v; left; reflexivity).
  apply pureAt_ooo_single, Hp'.
Qed.

Lemma readsOnly_pure s p :
  readsOnly s p -> forall v, pureAt s (matchPatternImpl p v).
Proof.
  induction p using Pattern_nested_ind; intros Hro v;
    inversion Hro; subst; unfold pureAt; cbn [matchPatternImpl].
  - destruct v; [right; eauto | left; reflexivity].
  - right. eauto.
  - apply orPatterns_pure, pure_elements; assumption.
  - destruct v; [right; eauto | left; reflexivity].
  - destruct v; [apply IHp; assumption | left; reflexivity].
  - apply andPatterns_pure, pure_elements; assumption.
  - destruct (IHp ltac:(assumption) v) as [->|[b ->]]; eauto.
  - destruct v; [|left; reflexivity].
    match goal with H : is_Some _ |- _ => destruct H as [w ->] end. eauto.
  - destruct v as [z|vs].
    + destruct ps; [right; eauto | left; reflexivity].
    + apply tupleMatchImpl_pure, pure_elements; assumption.
  - destruct v as [z|vs]; [left; reflexivity|].
    apply oooAll_pure. intros v. apply IHp. assumption.
  - destruct (IHp ltac:(assumption) v) as [->|[[|] ->]]; eauto.
    match goal with H : forall s', snd (pred s') = s' |- _ =>
      specialize (H s) end.
    destruct (pred s) as [b s'']. simpl in *. subst. eauto.
Qed.

Lemma matchPattern_pure s p v :
  readsOnly s p -> pureAt s (matchPattern v p).
Proof.
  intros H. unfold pureAt, matchPattern.
  destruct (MatchFuncDefined p (typeOf v)); [|left; reflexivity].
  apply readsOnly_pure, H.
Qed.

Lemma fixedMatch_pure s ps : forall vs,
  Forall (readsOnly s) ps -> pureAt s (fixedMatch ps vs).
Proof.
  induction ps as [|p tl IH]; intros vs H; destruct vs as [|v vs];
    cbn [fixedMatch]; try apply pureAt_Ret.
  inversion H; subst. apply pureAt_andAlso; [apply matchPattern_pure|]; auto.
Qed.

(** ** The search of the rest resolver, on patterns that only read *)

Lemma ooo_static_check q l :
  MatchFuncDefined (POoo q) (typeOf (VTuple l)) = true
  <-> Forall (fun v => MatchFuncDefined q (typeOf v) = true) l.
Proof.
  cbn [MatchFuncDefined typeOf]. induction l as [|v l IH]; cbn [map forallb].
  - split; [constructor | reflexivity].
  - rewrite andb_true_iff, IH. split.
    + intros [H1 H2]. constructor; assumption.
    + intros H. inversion H; subst. auto.
Qed.

Section RestSearch.
Variable s : Store.
Variable q : Pattern.
Variable rest : list Value -> Comp.
Variable m : list Value.
Hypothesis Hq : forall v, pureAt s (matchPatternImpl q v).
Hypothesis Hrest : forall vs, pureAt s (rest vs).

Let okq (v : Value) : Prop := matchPattern v q s = Ret true s.

Lemma okq_intro v :
  MatchFuncDefined q (typeOf v) = true -> matchPatternImpl q v s = Ret true s ->
  okq v.
Proof. intros Hd E. unfold okq. rewrite matchPattern_defined; assumption. Qed.

Lemma oooFold_search len : forall a o,
  (a + len <= length m + 1)%nat ->
  Forall okq (take (a - 1) m) ->
  o = oooFold matchPatternImpl (POoo q) rest (seq a len) m s ->
  o = NoRule
  \/ (o = Ret true s
      /\ exists K, (a <= K < a + len)%nat /\ restSplit s q rest m K)
  \/ ((o = Ret false s \/ o = OooMatchBreak s)
      /\ forall K, (a <= K < a + len)%nat -> ~ restSplit s q rest m K).
Proof.
  induction len as [|len IH]; intros a o Hb Hinv ->; cbn [seq oooFold].
  - right; right. split; [left; reflexivity | intros K HK; lia].
  - unfold orElse. destruct a as [|i]; cbn [tryOooMatchImplHelper].
    + destruct (Hrest m) as [E|[[|] E]]; rewrite E.
      * left; reflexivity.
      * right; left. split; [reflexivity|]. exists 0%nat. split; [lia|].
        unfold restSplit. rewrite take_0, drop_0.
        split; [lia | split; [constructor | exact E]].
      * destruct (IH 1%nat _ ltac:(lia) ltac:(rewrite take_0; constructor) eq_refl)
          as [IH'|[[IH' (K & HK & Hg)]|[IH' Hn]]].
        -- left; exact IH'.
        -- right; left. split; [exact IH'|]. exists K. split; [lia | exact Hg].
        -- right; right. split; [exact IH'|]. intros K HK Hg.
           destruct (decide (K = 0%nat)) as [->|HK0].
           ++ destruct Hg as (_ & _ & Hr). rewrite drop_0 in Hr. congruence.
           ++ apply (Hn K); [lia | exact Hg].
    + destruct (MatchFuncDefined (POoo q) (typeOf (VTuple (take (S i) m))))
        eqn:Hst.
      * destruct (lookup_lt_is_Some_2 m i ltac:(lia)) as [v Hv]. rewrite Hv.
        cbn [matchPatternImplSingle].
        assert (Hdv : MatchFuncDefined q (typeOf v) = true).
        { apply ooo_static_check in Hst.
          apply (Forall_lookup_1 _ _ i v Hst).
          rewrite lookup_take_lt by lia. exact Hv. }
        destruct (Hq v) as [E|[[|] E]]; rewrite E.
        -- left; reflexivity.
        -- assert (Hinv' : Forall okq (take (S i) m)).
           { rewrite (take_S_r _ _ _ Hv). apply Forall_app. split.
             - replace i with (S i - 1)%nat by lia. exact Hinv.
             - constructor; [apply okq_intro; assumption | constructor]. }
           destruct (Hrest (drop (S i) m)) as [E2|[[|] E2]]; rewrite E2.
           ++ left; reflexivity.
           ++ right; left. split; [reflexivity|]. exists (S i).
              split; [lia|]. split; [lia | split; [exact Hinv' | exact E2]].
           ++ destruct (IH (S (S i)) _ ltac:(lia)
                          ltac:(replace (S (S i) - 1)%nat with (S i) by lia;
                                exact Hinv') eq_refl)
                as [IH'|[[IH' (K & HK & Hg)]|[IH' Hn]]].
              ** left; exact IH'.
              ** right; left. split; [exact IH'|]. exists K.
                 split; [lia | exact Hg].
              ** right; right. split; [exact IH'|]. intros K HK Hg.
                 destruct (decide (K = S i)) as [->|HKi].
                 --- destruct Hg as (_ & _ & Hr). congruence.
                 --- apply (Hn K); [lia | exact Hg].
        -- right; right. split; [right; reflexivity|].
           intros K HK (_ & Hall & _).
           assert (Hv' : take K m !! i = Some v)
             by (rewrite lookup_take_lt by lia; exact Hv).
           pose proof (Forall_lookup_1 _ _ _ _ Hall Hv') as Hok.
           unfold okq in Hok. rewrite matchPattern_defined in Hok by exact Hdv.
           congruence.
      * right; right. split; [right; reflexivity|].
        intros K HK (_ & Hall & _).
        assert (Hst' : MatchFuncDefined (POoo q) (typeOf (VTuple (take (S i) m)))
                       = true).
        { apply ooo_static_check.
          replace (take (S i) m) with (take (S i) (take K m))
            by (rewrite take_take; f_equal; lia).
          apply Forall_take. eapply Forall_impl; [exact Hall|].
          intros v Hok. apply matchPattern_returns in Hok as [Hd _]. exact Hd. }
        congruence.
Qed.

Lemma tryOooMatchImpl_search :
  let o := tryOooMatchImpl matchPatternImpl (POoo q) rest m
             (seq 0 (length m + 1)) s in
  o = NoRule
  \/ (o = Ret true s /\ exists K, restSplit s q rest m K)
  \/ (o = Ret false s /\ forall K, ~ restSplit s q rest m K).
Proof.
  cbv zeta. unfold tryOooMatchImpl.
  destruct (oooFold_search (length m + 1) 0 _ ltac:(lia)
              ltac:(rewrite take_0; constructor) eq_refl)
    as [E|[[E (K & _ & Hg)]|[E Hn]]].
  - rewrite E. left; reflexivity.
  - rewrite E. right; left. split; [reflexivity | exists K; exact Hg].
  - right; right. split.
    + destruct E as [E|E]; rewrite E; reflexivity.
    + intros K Hg. destruct (decide (K <= length m)%nat) as [HK|HK].
      * apply (Hn K); [lia | exact Hg].
      * destruct Hg as (HKl & _). contradiction.
Qed.
End RestSearch.

(** ** From the code's search to the splits of the design document *)

Lemma tupleMatchImpl_prefix q post pre : forall vs s,
  Forall (fun p => isOoo p = false) pre ->
  MatchFuncDefined (PDs (pre ++ POoo q :: post)) (typeOf (VTuple vs)) = true ->
  (length pre <= length vs)%nat
  /\ tupleMatchImpl matchPatternImpl (pre ++ POoo q :: post) vs s
     = andAlso (fixedMatch pre (take (length pre) vs))
         (tryOooMatch matchPatternImpl (POoo q :: post) (drop (length pre) vs)) s.
Proof.
  induction pre as [|p tl IH]; intros vs s Hno Hdef.
  - split; [simpl; lia|]. reflexivity.
  - inversion Hno as [|? ? Hp Htl]; subst.
    cbn [app MatchFuncDefined typeOf tupleMatchDefined] in Hdef.
    rewrite Hp in Hdef. destruct vs as [|v0 vs]; [discriminate|].
    cbn [map] in Hdef. apply andb_prop in Hdef as [Hd0 Hdef].
    assert (Hdef' : MatchFuncDefined (PDs (tl ++ POoo q :: post))
                      (typeOf (VTuple vs)) = true) by exact Hdef.
    cbn [app tupleMatchImpl length take drop fixedMatch]. rewrite Hp.
    split; [destruct (IH vs s Htl Hdef') as [Hl _]; lia|].
    unfold andAlso at 1 2 3. rewrite (matchPattern_defined _ _ _ Hd0).
    destruct (matchPatternImpl p v0 s) as [[|] s1|s1|]; try reflexivity.
    destruct (IH vs s1 Htl Hdef') as [_ ->]. reflexivity.
Qed.

Lemma tryOooMatch_fixedMatch post : forall vs s s',
  Forall (fun p => isOoo p = false) post ->
  tryOooMatch matchPatternImpl post vs s = Ret true s'
  <-> fixedMatch post vs s = Ret true s'.
Proof.
  induction post as [|p tl IH]; intros vs s s' Hno.
  - destruct vs; split; intros H; solve [exact H | vm_compute in H; discriminate].
  - inversion Hno as [|? ? Hp Htl]; subst.
    cbn [tryOooMatch fixedMatch]. rewrite Hp.
    destruct vs as [|v0 vs]; [split; discriminate|].
    unfold andAlso, matchPattern.
    destruct (MatchFuncDefined p (typeOf v0)); [|split; discriminate].
    destruct (matchPatternImpl p v0 s) as [[|] s1|s1|]; try (split; congruence).
    apply IH, Htl.
Qed.

(** ** A call that compiles returns a [bool] *)

Lemma lookup_map_typeOf (vs : list Value) i :
  map typeOf vs !! i = typeOf <$> vs !! i.
Proof.
  revert i. induction vs as [|v vs IH]; intros [|i]; cbn; auto.
Qed.

Lemma returns_andAlso (a b : Comp) s :
  returns (a s) -> (forall s', returns (b s')) -> returns (andAlso a b s).
Proof.
  unfold andAlso. intros ([|] & s1 & ->) Hb; [apply Hb | eexists _, _; reflexivity].
Qed.

Lemma returns_orElse (a b : Comp) s :
  returns (a s) -> (forall s', returns (b s')) -> returns (orElse a b s).
Proof.
  unfold orElse. intros ([|] & s1 & ->) Hb; [eexists _, _; reflexivity | apply Hb].
Qed.

Lemma returns_Ret b s : returns (Ret b s).
Proof. eexists _, _. reflexivity. Qed.

Section SoundRules.
Variable matchp : Pattern -> Value -> Store -> Outcome.
Variable inst : Pattern -> Ty -> bool.

Let soundP (p : Pattern) : Prop :=
  (forall v s, inst p (typeOf v) = true -> returns (matchp p v s))
  /\ (forall v s, singleInstantiates inst p (typeOf v) = true ->
        returns (matchPatternImplSingle matchp p v s)).

Lemma orPatterns_returns ps v :
  Forall soundP ps ->
  forallb (fun q => inst q (typeOf v)) ps = true ->
  forall s, returns (orPatterns matchp ps v s).
Proof.
  induction 1 as [|p tl [Hp _] _ IH]; cbn [forallb orPatterns]; intros Hi s.
  - apply returns_Ret.
  - apply andb_prop in Hi as [Hi1 Hi2]. apply returns_orElse; auto.
Qed.

Lemma andPatterns_returns ps v :
  Forall soundP ps ->
  forallb (fun q => inst q (typeOf v)) ps = true ->
  forall s, returns (andPatterns matchp ps v s).
Proof.
  induction 1 as [|p tl [Hp _] _ IH]; cbn [forallb andPatterns]; intros Hi s.
  - apply returns_Ret.
  - apply andb_prop in Hi as [Hi1 Hi2]. apply returns_andAlso; auto.
Qed.

Lemma oooAll_returns q vs :
  (forall v s, inst q (typeOf v) = true -> returns (matchp q v s)) ->
  forallb (inst q) (map typeOf vs) = true ->
  forall s, returns (oooAll (matchp q) vs s).
Proof.
  intros Hq. induction vs as [|v tl IH]; cbn [map forallb oooAll]; intros Hi s.
  - apply returns_Ret.
  - apply andb_prop in Hi as [Hi1 Hi2]. apply returns_andAlso; auto.
Qed.

(** A helper that compiles returns or throws. *)
Lemma tryOooMatchImplHelper_returns head restI (rest : list Value -> Comp) I vs s :
  (forall v s', singleInstantiates inst head (typeOf v) = true ->
     returns (matchPatternImplSingle matchp head v s')) ->
  (forall vs' s', restI (map typeOf vs') = true -> returns (rest vs' s')) ->
  helperInstantiates inst head restI I (map typeOf vs) = true ->
  returns (tryOooMatchImplHelper matchp head rest I vs s)
  \/ exists s', tryOooMatchImplHelper matchp head rest I vs s = OooMatchBreak s'.
Proof.
  intros Hsingle Hrest Hi.
  destruct I as [|i]; cbn [helperInstantiates tryOooMatchImplHelper] in *.
  - left. apply Hrest, Hi.
  - cbn [typeOf]. rewrite <- firstn_map.
    destruct (MatchFuncDefined head (TTuple (take (S i) (map typeOf vs))));
      [|right; eauto].
    rewrite lookup_map_typeOf in Hi.
    destruct (vs !! i) as [v|]; [|discriminate]. cbn [fmap option_fmap option_map] in Hi.
    apply andb_prop in Hi as [Hi1 Hi2]. rewrite skipn_map in Hi2.
    destruct (Hsingle v s Hi1) as ([|] & s1 & ->).
    + left. apply Hrest, Hi2.
    + right. eauto.
Qed.

Lemma tryOooMatchImpl_returns head restI (rest : list Value -> Comp) vs Is s :
  (forall v s', singleInstantiates inst head (typeOf v) = true ->
     returns (matchPatternImplSingle matchp head v s')) ->
  (forall vs' s', restI (map typeOf vs') = true -> returns (rest vs' s')) ->
  forallb (fun I => helperInstantiates inst head restI I (map typeOf vs)) Is = true ->
  returns (tryOooMatchImpl matchp head rest vs Is s).
Proof.
  intros Hsingle Hrest Hi. unfold tryOooMatchImpl.
  assert (H : returns (oooFold matchp head rest Is vs s)
              \/ exists s', oooFold matchp head rest Is vs s = OooMatchBreak s').
  { revert s. induction Is as [|K tl IH]; intros s; cbn [oooFold forallb] in *.
    - left. apply returns_Ret.
    - apply andb_prop in Hi as [Hi1 Hi2]. unfold orElse.
      destruct (tryOooMatchImplHelper_returns head restI rest K vs s
                  Hsingle Hrest Hi1) as [([|] & s1 & ->)|[s1 ->]].
      + left. apply returns_Ret.
      + apply IH, Hi2.
      + right. eauto. }
  destruct H as [(b & s1 & ->)|[s1 ->]]; apply returns_Ret.
Qed.

Lemma tryOooMatch_returns ps : forall vs s,
  Forall soundP ps ->
  tryOooMatchInstantiates inst ps (map typeOf vs) = true ->
  returns (tryOooMatch matchp ps vs s).
Proof.
  induction ps as [|p tl IH]; intros vs s H Hi;
    cbn [tryOooMatch tryOooMatchInstantiates] in *.
  - apply returns_Ret.
  - inversion H as [|? ? [Hp Hsingle] Htl]; subst.
    destruct (isOoo p).
    + rewrite length_map in Hi.
      eapply tryOooMatchImpl_returns; [exact Hsingle | | exact Hi].
      intros vs' s' Hi'. apply IH; assumption.
    + destruct vs as [|v0 vs]; [apply returns_Ret|]. cbn [map] in Hi.
      destruct (MatchFuncDefined p (typeOf v0)); [|apply returns_Ret].
      apply andb_prop in Hi as [Hi1 Hi2]. apply returns_andAlso; auto.
Qed.

Lemma tupleMatchImpl_returns ps : forall vs s,
  Forall soundP ps ->
  tupleMatchInstantiates inst ps (TTuple (map typeOf vs)) = true ->
  returns (tupleMatchImpl matchp ps vs s).
Proof.
  induction ps as [|p tl IH]; intros vs s H Hi.
  - apply returns_Ret.
  - cbn [tupleMatchImpl tupleMatchInstantiates] in *. destruct (isOoo p).
    + apply tryOooMatch_returns; assumption.
    + inversion H as [|? ? [Hp _] Htl]; subst.
      destruct vs as [|v0 vs]; [discriminate|]. cbn [map] in Hi.
      apply andb_prop in Hi as [Hi1 Hi2]. apply returns_andAlso; auto.
Qed.
End SoundRules.

Lemma returns_ooo_single q :
  (forall v s, Instantiates (POoo q) (typeOf v) = true ->
     returns (matchPatternImpl (POoo q) v s)) ->
  forall v s, Instantiates q (typeOf v) = true -> returns (matchPatternImpl q v s).
Proof.
  intros H v s Hi. specialize (H (VTuple [v]) s).
  cbn [Instantiates typeOf map forallb matchPatternImpl oooAll] in H.
  rewrite Hi in H. specialize (H eq_refl). unfold andAlso in H.
  destruct (matchPatternImpl q v s) as [[|] s1|s1|];
    try apply returns_Ret; destruct H as (b & s' & H); discriminate.
Qed.

Lemma sound_elements ps :
  Forall (fun p => forall v s, Instantiates p (typeOf v) = true ->
                               returns (matchPatternImpl p v s)) ps ->
  Forall (fun p =>
            (forall v s, Instantiates p (typeOf v) = true ->
                         returns (matchPatternImpl p v s))
            /\ (forall v s, singleInstantiates Instantiates p (typeOf v) = true ->
                  returns (matchPatternImplSingle matchPatternImpl p v s))) ps.
Proof.
  intros H. eapply Forall_impl; [exact H|]. intros p Hp. split; [exact Hp|].
  destruct p; try (intros v s Hi; discriminate).
  cbn [singleInstantiates matchPatternImplSingle]. apply returns_ooo_single, Hp.
Qed.

Lemma Instantiates_returns p :
  forall v s, Instantiates p (typeOf v) = true -> returns (matchPatternImpl p v s).
Proof.
  induction p using Pattern_nested_ind; intros v s Hi;
    cbn [Instantiates matchPatternImpl] in *.
  - destruct v; [apply returns_Ret | discriminate].
  - apply returns_Ret.
  - apply (orPatterns_returns _ Instantiates); [apply sound_elements|]; assumption.
  - destruct v; [apply returns_Ret | discriminate].
  - destruct v; [|discriminate]. apply IHp. exact Hi.
  - apply (andPatterns_returns _ Instantiates); [apply sound_elements|]; assumption.
  - destruct (IHp v s Hi) as (b & s' & ->). apply returns_Ret.
  - destruct v; [|discriminate]. destruct (s !! cell); apply returns_Ret.
  - destruct v as [z|vs].
    + destruct ps; [apply returns_Ret | discriminate].
    + apply (tupleMatchImpl_returns _ Instantiates); [apply sound_elements|];
        assumption.
  - destruct v as [z|vs]; [discriminate|]. cbn [typeOf] in Hi.
    apply (oooAll_returns _ Instantiates); assumption.
  - destruct (IHp v s Hi) as ([|] & s' & ->); [|apply returns_Ret].
    destruct (pred s'). apply returns_Ret.
Qed.

Lemma Instantiates_defined p :
  forall t, Instantiates p t = true -> MatchFuncDefined p t = true.
Proof.
  induction p using Pattern_nested_ind; intros t Hi;
    cbn [Instantiates MatchFuncDefined] in *; auto.
  - induction H as [|q tl Hq _ IH]; [reflexivity|]. cbn [forallb] in *.
    apply andb_prop in Hi as [Hi1 Hi2]. rewrite (Hq _ Hi1), (IH Hi2). reflexivity.
  - apply andb_prop in Hi as [Hi1 Hi2]. rewrite Hi1, (IHp _ Hi2). reflexivity.
  - induction H as [|q tl Hq _ IH]; [reflexivity|]. cbn [forallb] in *.
    apply andb_prop in Hi as [Hi1 Hi2]. rewrite (Hq _ Hi1), (IH Hi2). reflexivity.
  - revert t Hi. induction H as [|q tl Hq _ IH]; intros t Hi; [reflexivity|].
    cbn [tupleMatchInstantiates tupleMatchDefined] in *.
    destruct (isOoo q); [reflexivity|].
    destruct t as [|[|t0 ts]]; try discriminate.
    apply andb_prop in Hi as [Hi1 Hi2]. rewrite (Hq _ Hi1), (IH _ Hi2). reflexivity.
  - destruct t as [|ts]; [discriminate|].
    induction ts as [|t0 ts IH]; [reflexivity|]. cbn [forallb] in *.
    apply andb_prop in Hi as [Hi1 Hi2]. rewrite (IHp _ Hi1), (IH Hi2). reflexivity.
Qed.

Lemma matchPattern_compiled v p s :
  Instantiates p (typeOf v) = true -> returns (matchPattern v p s).
Proof.
  intros Hi. rewrite matchPattern_defined by (apply Instantiates_defined, Hi).
  apply Instantiates_returns, Hi.
Qed.

(** ** The abort of the rest resolver *)

(** C5.  No call of [matchPattern] ends in a thrown [OooMatchBreak]: the
    exception is raised inside the fold of [tryOooMatchImpl] only, and the
    handler there turns it into the result false, with the cells as they
    were when it was raised.  A call that compiles returns a [bool].  For
    [ds(ooo(isEven), 5)] against (2, 3, 5) the helper for [I = 2] throws
    and the match returns false. *)
Theorem C5_break_contained :
  (forall v p s s', matchPattern v p s <> OooMatchBreak s')
  /\ (forall v p s, Instantiates p (typeOf v) = true ->
        exists b s', matchPattern v p s = Ret b s')
  /\ (forall matchp head rest values Is s s',
        oooFold matchp head rest Is values s = OooMatchBreak s' ->
        tryOooMatchImpl matchp head rest values Is s = Ret false s')
  /\ tryOooMatchImplHelper matchPatternImpl (POoo (PMeet isEven))
       (tryOooMatch matchPatternImpl [PLit 5]) 2 [VInt 2; VInt 3; VInt 5] ∅
     = OooMatchBreak ∅
  /\ matchPattern (VTuple [VInt 2; VInt 3; VInt 5])
       (PDs [POoo (PMeet isEven); PLit 5]) ∅
     = Ret false ∅.
Proof.
  split; [|split; [|split; [|split]]].
  - intros v p s s'. apply matchPattern_noBreak.
  - intros v p s. apply matchPattern_compiled.
  - intros matchp head rest values Is s s' H. unfold tryOooMatchImpl.
    rewrite H. reflexivity.
  - vm_compute. reflexivity.
  - vm_compute. reflexivity.
Qed.

Lemma C5_break_contained_witness :
  (exists b s',
      matchPattern (VTuple [VInt 2; VInt 3; VInt 5])
        (PDs [POoo (PMeet isEven); PLit 5]) ∅ = Ret b s')
  /\ tryOooMatchImpl matchPatternImpl (POoo (PMeet isEven))
       (tryOooMatch matchPatternImpl [PLit 5]) [VInt 2; VInt 3; VInt 5]
       [0; 1; 2; 3]%nat ∅
     = Ret false ∅.
Proof.
  split.
  - apply (proj1 (proj2 C5_break_contained)). vm_compute. reflexivity.
  - apply (proj1 (proj2 (proj2 C5_break_contained))). vm_compute. reflexivity.
Defined.

(** ** Arity of a sequence without a rest element *)

(** C8, as the code has it.  A sequence pattern of [N] elements without
    a rest element, against a longer value sequence: the first [N]
    values are matched exactly as the [N]-element sequence of them would
    be (in order, ending at the first failure, committing cells), and
    where that match succeeds the result is false; so a call that
    compiles returns false.  Against a shorter value sequence no rule is
    defined and nothing is evaluated. *)
Theorem C8_arity_mismatch ps vs s :
  Forall (fun p => isOoo p = false) ps ->
  ((length ps < length vs)%nat ->
     matchPattern (VTuple vs) (PDs ps) s
     = match matchPattern (VTuple (take (length ps) vs)) (PDs ps) s with
       | Ret true s' => Ret false s'
       | o => o
       end)
  /\ ((length ps < length vs)%nat ->
        Instantiates (PDs ps) (typeOf (VTuple vs)) = true ->
        exists s', matchPattern (VTuple vs) (PDs ps) s = Ret false s')
  /\ ((length vs < length ps)%nat ->
        MatchFuncDefined (PDs ps) (typeOf (VTuple vs)) = false
        /\ matchPattern (VTuple vs) (PDs ps) s = NoRule).
Proof.
  intros Hno.
  assert (E : (length ps < length vs)%nat ->
     matchPattern (VTuple vs) (PDs ps) s
     = match matchPattern (VTuple (take (length ps) vs)) (PDs ps) s with
       | Ret true s' => Ret false s'
       | o => o
       end).
  { intros Hlen. unfold matchPattern.
    rewrite <- tupleMatchDefined_take by (assumption || lia).
    destruct (MatchFuncDefined (PDs ps) (typeOf (VTuple vs))); [|reflexivity].
    cbn [matchPatternImpl]. apply tupleMatchImpl_longer; assumption. }
  split; [exact E|]. split.
  - intros Hlen Hinst.
    destruct (matchPattern_compiled _ _ s Hinst) as (b & s' & Hr).
    rewrite (E Hlen) in Hr |- *.
    destruct (matchPattern (VTuple (take (length ps) vs)) (PDs ps) s)
      as [[|] s1|s1|]; try discriminate; eauto.
  - intros Hlen.
    pose proof (tupleMatchDefined_shorter ps vs Hno Hlen) as H.
    split; [exact H | apply matchPattern_undefined, H].
Qed.

Lemma C8_arity_mismatch_witness :
  exists s',
    matchPattern (VTuple [VInt 1; VInt 2; VInt 3]) (PDs [PId 0; PId 1]) ∅
    = Ret false s'.
Proof.
  apply (proj1 (proj2 (C8_arity_mismatch [PId 0; PId 1]
                         [VInt 1; VInt 2; VInt 3] ∅
                         ltac:(repeat constructor)))).
  - simpl. lia.
  - vm_compute. reflexivity.
Defined.

(** C8 as stated fails: [ds(x, y)] against (1, 2, 3) returns false only
    after [x] and [y] have been committed, and against (1) there is no
    rule at all rather than a returned false. *)
Lemma C8_counterexample :
  matchPattern (VTuple [VInt 1; VInt 2; VInt 3]) (PDs [PId 0; PId 1]) ∅
    = Ret false {[ 0%nat := 1; 1%nat := 2 ]}
  /\ matchPattern (VTuple [VInt 1; VInt 2; VInt 3]) (PDs [PId 0; PId 1]) ∅
     <> Ret false ∅
  /\ matchPattern (VTuple [VInt 1]) (PDs [PId 0; PId 1]) ∅ = NoRule.
Proof.
  split; [|split].
  - vm_compute. reflexivity.
  - vm_compute. discriminate.
  - vm_compute. reflexivity.
Qed.

(** ** A sequence with one rest element *)

(** *** The search with captures before and inside the rest element *)

Lemma oooAll_snoc (f : Value -> Comp) l v : forall s,
  oooAll f (l ++ [v]) s = andAlso (oooAll f l) (f v) s.
Proof.
  induction l as [|x l IH]; intros s; cbn [app oooAll].
  - unfold andAlso. destruct (f v s) as [[|] s1|s1|]; reflexivity.
  - unfold andAlso in *. destruct (f x s) as [[|] s1|s1|]; auto.
Qed.

Lemma oooAll_take_true (f : Value -> Comp) l : forall n s t,
  oooAll f l s = Ret true t -> exists t0, oooAll f (take n l) s = Ret true t0.
Proof.
  induction l as [|x l IH]; intros [|n] s t H; cbn [take oooAll] in *; eauto.
  unfold andAlso in *. destruct (f x s) as [[|] s1|s1|]; try discriminate.
  eapply IH, H.
Qed.

Lemma oooAll_true_defined q l : forall s t,
  oooAll (fun v => matchPattern v q) l s = Ret true t ->
  Forall (fun v => MatchFuncDefined q (typeOf v) = true) l.
Proof.
  induction l as [|x l IH]; intros s t H; [constructor|].
  cbn [oooAll] in H. unfold andAlso in H.
  destruct (matchPattern x q s) as [[|] s1|s1|] eqn:Hx; try discriminate.
  constructor; [apply matchPattern_returns in Hx as [Hd _]; exact Hd | eapply IH, H].
Qed.

Lemma tryOooMatch_quiet post vs s :
  noBreak (tryOooMatch matchPatternImpl post vs s).
Proof.
  apply tryOooMatch_noBreak. apply Forall_forall. intros p _ v s0.
  apply matchPatternImpl_noBreak.
Qed.

Section ThreadedSearch.
Variable q : Pattern.
Variable post : list Pattern.
Variable m : list Value.
Variable s1 : Store.

Let mq (v : Value) : Comp := matchPattern v q.
Let rest : list Value -> Comp := tryOooMatch matchPatternImpl post.

(** The split of length [K], run on its own from [s1]. *)
Let attemptOK (K : nat) : Prop :=
  exists t t', oooAll mq (take K m) s1 = Ret true t
               /\ rest (drop K m) t = Ret true t'.

Hypothesis Hclean : forall K t t',
  (K <= length m)%nat -> oooAll mq (take K m) s1 = Ret true t ->
  rest (drop K m) t = Ret false t' -> t' = t.

Lemma oooFold_threaded len : forall a t o,
  (a + len <= length m + 1)%nat ->
  oooAll mq (take (a - 1) m) s1 = Ret true t ->
  o = oooFold matchPatternImpl (POoo q) rest (seq a len) m t ->
  o = NoRule
  \/ ((exists t', o = Ret true t')
      /\ exists K, (a <= K < a + len)%nat /\ attemptOK K)
  \/ ((exists t', o = Ret false t' \/ o = OooMatchBreak t')
      /\ forall K, (a <= K < a + len)%nat -> ~ attemptOK K).
Proof.
  induction len as [|len IH]; intros a t o Hb Hinv ->; cbn [seq oooFold].
  - right; right. split; [eauto | intros K HK; lia].
  - unfold orElse. destruct a as [|i]; cbn [tryOooMatchImplHelper].
    + cbn [take oooAll] in Hinv. injection Hinv as <-.
      pose proof (tryOooMatch_quiet post m s1) as Hnb. fold rest in Hnb.
      destruct (rest m s1) as [[|] t1|t1|] eqn:E.
      * right; left. split; [eauto|]. exists 0%nat. split; [lia|].
        exists s1, t1. rewrite take_0, drop_0. split; [reflexivity | exact E].
      * assert (t1 = s1) as ->.
        { apply (Hclean 0%nat); [lia | rewrite take_0; reflexivity|].
          rewrite drop_0. exact E. }
        destruct (IH 1%nat s1 _ ltac:(lia) ltac:(rewrite take_0; reflexivity) eq_refl)
          as [IH'|[[IH' (K & HK & Hg)]|[IH' Hn]]].
        -- left; exact IH'.
        -- right; left. split; [exact IH'|]. exists K. split; [lia | exact Hg].
        -- right; right. split; [exact IH'|]. intros K HK Hg.
           destruct (decide (K = 0%nat)) as [->|HK0]; [|apply (Hn K); [lia | exact Hg]].
           destruct Hg as (t & t' & Ha & Hr). rewrite take_0 in Ha.
           cbn [oooAll] in Ha. injection Ha as <-. rewrite drop_0 in Hr. congruence.
      * exfalso. exact (Hnb t1 eq_refl).
      * left; reflexivity.
    + replace (S i - 1)%nat with i in Hinv by lia.
      destruct (MatchFuncDefined (POoo q) (typeOf (VTuple (take (S i) m))))
        eqn:Hst.
      * destruct (lookup_lt_is_Some_2 m i ltac:(lia)) as [v Hv]. rewrite Hv.
        cbn [matchPatternImplSingle].
        assert (Hdv : MatchFuncDefined q (typeOf v) = true).
        { apply ooo_static_check in Hst.
          apply (Forall_lookup_1 _ _ i v Hst).
          rewrite lookup_take_lt by lia. exact Hv. }
        assert (Hstep : oooAll mq (take (S i) m) s1 = mq v t).
        { rewrite (take_S_r _ _ _ Hv), oooAll_snoc. unfold andAlso.
          rewrite Hinv. reflexivity. }
        unfold mq in Hstep at 2. rewrite matchPattern_defined in Hstep by exact Hdv.
        pose proof (matchPatternImpl_noBreak q v t) as Hnq.
        destruct (matchPatternImpl q v t) as [[|] t2|t2|] eqn:E.
        -- pose proof (tryOooMatch_quiet post (drop (S i) m) t2) as Hnb.
           fold rest in Hnb.
           destruct (rest (drop (S i) m) t2) as [[|] t3|t3|] eqn:E2.
           ++ right; left. split; [eauto|]. exists (S i). split; [lia|].
              exists t2, t3. split; [exact Hstep | exact E2].
           ++ assert (t3 = t2) as ->
                by (apply (Hclean (S i)); [lia | exact Hstep | exact E2]).
              destruct (IH (S (S i)) t2 _ ltac:(lia)
                          ltac:(replace (S (S i) - 1)%nat with (S i) by lia;
                                exact Hstep) eq_refl)
                as [IH'|[[IH' (K & HK & Hg)]|[IH' Hn]]].
              ** left; exact IH'.
              ** right; left. split; [exact IH'|]. exists K.
                 split; [lia | exact Hg].
              ** right; right. split; [exact IH'|]. intros K HK Hg.
                 destruct (decide (K = S i)) as [->|HKi];
                   [|apply (Hn K); [lia | exact Hg]].
                 destruct Hg as (u & u' & Ha & Hr). rewrite Hstep in Ha.
                 injection Ha as <-. congruence.
           ++ exfalso. exact (Hnb t3 eq_refl).
           ++ left; reflexivity.
        -- right; right. split; [eauto|].
           intros K HK (u & u' & Ha & _).
           destruct (oooAll_take_true mq _ (S i) _ _ Ha) as [u0 Hu].
           rewrite take_take in Hu.
           replace (S i `min` K)%nat with (S i) in Hu by lia.
           rewrite Hstep in Hu. discriminate.
        -- exfalso. exact (Hnq t2 eq_refl).
        -- left; reflexivity.
      * right; right. split; [eauto|].
        intros K HK (u & u' & Ha & _).
        assert (Hst' : MatchFuncDefined (POoo q) (typeOf (VTuple (take (S i) m)))
                       = true).
        { apply ooo_static_check.
          replace (take (S i) m) with (take (S i) (take K m))
            by (rewrite take_take; f_equal; lia).
          apply Forall_take. eapply oooAll_true_defined. exact Ha. }
        congruence.
Qed.
End ThreadedSearch.

Lemma readsOnly_fails_clean post l t t' :
  Forall (readsOnly t) post ->
  tryOooMatch matchPatternImpl post l t = Ret false t' -> t' = t.
Proof.
  intros Hro H.
  destruct (tryOooMatch_pure matchPatternImpl t post l
              (pure_elements t post
                 (Forall_impl _ _ _ Hro (fun p Hp _ => readsOnly_pure t p Hp)) Hro))
    as [E|[b E]]; rewrite E in H; [discriminate | congruence].
Qed.

(** Patterns after the rest element that hold no capture and whose guards
    only read fail cleanly, whatever comes before them. *)
Lemma failsClean_no_capture pre q post vs s :
  (forall t, Forall (readsOnly t) post) -> failsClean pre q post vs s.
Proof.
  intros H K s1 t t' _ _ _ Hr. eapply readsOnly_fails_clean; [apply H | exact Hr].
Qed.

(** So do patterns that write no cell at all in the store at hand. *)
Lemma failsClean_readsOnly pre q post vs s :
  Forall (readsOnly s) (pre ++ POoo q :: post) -> failsClean pre q post vs s.
Proof.
  intros Hro K s1 t t' _ Hpre Hq Hr.
  apply Forall_app in Hro as [Hropre Hro].
  inversion Hro as [|? ? Hroq Hropost]; subst. inversion Hroq; subst.
  destruct (fixedMatch_pure s pre (take (length pre) vs) Hropre) as [E|[b E]];
    rewrite E in Hpre; [discriminate|]. injection Hpre as _ <-.
  assert (Hqp : pureAt s (oooAll (fun v => matchPattern v q)
                            (take K (drop (length pre) vs))))
    by (apply oooAll_pure; intros v; apply matchPattern_pure; assumption).
  destruct Hqp as [E'|[b' E']]; rewrite E' in Hq; [discriminate|].
  injection Hq as _ <-. eapply readsOnly_fails_clean; eassumption.
Qed.

(** [ds(x, ooo(_), x)]: the capture after the rest element is committed
    by the one before it. *)
Example failsClean_capture_again :
  failsClean [PId 0] PWildcard [PId 0] [VInt 1; VInt 2; VInt 3; VInt 1] ∅.
Proof.
  intros K s1 t t' HK Hpre Hq Hr.
  vm_compute in Hpre. injection Hpre as <-.
  eapply readsOnly_fails_clean; [|exact Hr].
  repeat constructor.
  destruct K as [|[|[|[|K]]]]; vm_compute in Hq; injection Hq as <-;
    vm_compute; eauto.
Qed.

(** The match of a sequence with one rest element returns what the
    search over every split length returns, when the patterns after the
    rest element fail cleanly. *)
Lemma rest_search_threaded pre q post vs s :
  Forall (fun p => isOoo p = false) pre ->
  Forall (fun p => isOoo p = false) post ->
  Instantiates (PDs (pre ++ POoo q :: post)) (typeOf (VTuple vs)) = true ->
  failsClean pre q post vs s ->
  exists s', matchPattern (VTuple vs) (PDs (pre ++ POoo q :: post)) s
             = Ret (exhaustiveSearch pre q post vs s) s'.
Proof.
  intros Hpre Hpost Hinst Hclean.
  destruct (matchPattern_compiled _ _ s Hinst) as (b & s' & Hret).
  pose proof (Instantiates_defined _ _ Hinst) as Hdef.
  destruct (tupleMatchImpl_prefix q post pre vs s Hpre Hdef) as [Hlen E].
  assert (Ecode : matchPattern (VTuple vs) (PDs (pre ++ POoo q :: post)) s
                  = andAlso (fixedMatch pre (take (length pre) vs))
                      (tryOooMatch matchPatternImpl (POoo q :: post)
                         (drop (length pre) vs)) s).
  { rewrite matchPattern_defined by exact Hdef. exact E. }
  clear E. rewrite Ecode in Hret |- *. clear Ecode.
  assert (Hsplit : forall K s1,
            fixedMatch pre (take (length pre) vs) s = Ret true s1 ->
            splitAttempt pre q post vs K s
            = andAlso (oooAll (fun v => matchPattern v q)
                         (take K (drop (length pre) vs)))
                (fixedMatch post (drop K (drop (length pre) vs))) s1).
  { intros K s1 Ef. unfold splitAttempt. unfold andAlso at 1. rewrite Ef.
    rewrite drop_drop. reflexivity. }
  unfold andAlso in Hret |- *.
  destruct (fixedMatch pre (take (length pre) vs) s) as [[|] s1|s1|] eqn:Ef;
    try discriminate.
  - cbn [tryOooMatch isOoo] in Hret |- *. unfold tryOooMatchImpl in Hret |- *.
    destruct (oooFold_threaded q post (drop (length pre) vs) s1
                (fun K t t' HK Ha Hr =>
                   Hclean K s1 t t'
                     ltac:(rewrite length_drop in HK; exact HK) Ef Ha
                     ltac:(rewrite <- drop_drop; exact Hr))
                (length (drop (length pre) vs) + 1) 0%nat s1 _
                ltac:(lia) eq_refl eq_refl)
      as [Hs|[[[t' Hs] (K & HK & u & u' & Ha & Hr)]|[[t' Hs] Hn]]].
    + rewrite Hs in Hret. discriminate.
    + rewrite Hs. exists t'. f_equal. symmetry.
      apply existsb_exists. exists K. split.
      * apply in_seq. rewrite length_drop in HK. lia.
      * rewrite (Hsplit K s1 eq_refl). unfold andAlso. rewrite Ha.
        apply tryOooMatch_fixedMatch in Hr; [|exact Hpost]. rewrite Hr. reflexivity.
    + assert (Hfalse : exhaustiveSearch pre q post vs s = false).
      { apply not_true_is_false. intros H.
        apply existsb_exists in H as (K & HK & Hsp). apply in_seq in HK.
        rewrite (Hsplit K s1 eq_refl) in Hsp. unfold andAlso in Hsp.
        destruct (oooAll _ (take K (drop (length pre) vs)) s1)
          as [[|] u|u|] eqn:Ha; try discriminate.
        destruct (fixedMatch post (drop K (drop (length pre) vs)) u)
          as [[|] u'|u'|] eqn:Hr; try discriminate.
        apply (Hn K); [rewrite length_drop; lia|].
        exists u, u'. split; [exact Ha|].
        apply tryOooMatch_fixedMatch; assumption. }
      rewrite Hfalse. destruct Hs as [Hs|Hs]; rewrite Hs; eauto.
  - exists s1. f_equal. symmetry. apply not_true_is_false. intros H.
    apply existsb_exists in H as (K & _ & Hsp). unfold splitAttempt in Hsp.
    unfold andAlso at 1 in Hsp. rewrite Ef in Hsp. discriminate.
Qed.

Lemma readsOnly_sequence_store ps vs s b s' :
  Forall (readsOnly s) ps ->
  matchPattern (VTuple vs) (PDs ps) s = Ret b s' -> s' = s.
Proof.
  intros Hro H.
  destruct (matchPattern_pure s (PDs ps) (VTuple vs) (ro_Ds s ps Hro))
    as [E|[b' E]]; rewrite E in H; [discriminate | congruence].
Qed.

(** C1, as the code has it.  For a sequence pattern with exactly one
    rest element and a value tuple for which the match compiles, where
    the patterns after the rest element leave the cells as they were
    whenever they fail (the patterns before the rest element and the
    rest's sub-pattern capture freely): the match returns true exactly
    when some split length [K] between 0 and the remaining length
    succeeds (the patterns before the rest element match their slots,
    each of the next [K] values matches the rest's sub-pattern, the
    patterns after it match what remains); when no such [K] exists the
    match returns false.  When no pattern of the sequence writes a cell,
    the cells are as before. *)
Theorem C1_rest_split pre q post vs s :
  Forall (fun p => isOoo p = false) pre ->
  Forall (fun p => isOoo p = false) post ->
  Instantiates (PDs (pre ++ POoo q :: post)) (typeOf (VTuple vs)) = true ->
  failsClean pre q post vs s ->
  ((exists s', matchPattern (VTuple vs) (PDs (pre ++ POoo q :: post)) s
               = Ret true s')
   <-> exists K, (K <= length vs - length pre)%nat
                 /\ succeeds (splitAttempt pre q post vs K s) = true)
  /\ ((~ exists K, (K <= length vs - length pre)%nat
                   /\ succeeds (splitAttempt pre q post vs K s) = true) ->
      exists s', matchPattern (VTuple vs) (PDs (pre ++ POoo q :: post)) s
                 = Ret false s')
  /\ (Forall (readsOnly s) (pre ++ POoo q :: post) ->
      forall b s', matchPattern (VTuple vs) (PDs (pre ++ POoo q :: post)) s
                   = Ret b s' -> s' = s).
Proof.
  intros Hpre Hpost Hinst Hclean.
  destruct (rest_search_threaded pre q post vs s Hpre Hpost Hinst Hclean)
    as [s0 E].
  assert (Hex : exhaustiveSearch pre q post vs s = true
                <-> exists K, (K <= length vs - length pre)%nat
                              /\ succeeds (splitAttempt pre q post vs K s) = true).
  { unfold exhaustiveSearch. rewrite existsb_exists. split.
    - intros (K & HK & Hs). apply in_seq in HK. exists K. split; [lia | exact Hs].
    - intros (K & HK & Hs). exists K. split; [apply in_seq; lia | exact Hs]. }
  split; [|split].
  - rewrite E, <- Hex. split.
    + intros [s' H]. injection H as -> _. reflexivity.
    + intros ->. eauto.
  - intros Hno. rewrite E.
    destruct (exhaustiveSearch pre q post vs s); [|eauto].
    exfalso. apply Hno, Hex. reflexivity.
  - intros Hro b s'. apply readsOnly_sequence_store, Hro.
Qed.

(** [ds(x, ooo(y), 5)]: captures before and inside the rest element. *)
Lemma C1_rest_split_witness :
  exists s',
    matchPattern (VTuple [VInt 1; VInt 7; VInt 7; VInt 5])
      (PDs ([PId 0] ++ POoo (PId 1) :: [PLit 5])) ∅
    = Ret true s'.
Proof.
  apply (proj1 (C1_rest_split [PId 0] (PId 1) [PLit 5]
                  [VInt 1; VInt 7; VInt 7; VInt 5] ∅
                  ltac:(repeat constructor) ltac:(repeat constructor)
                  ltac:(vm_compute; reflexivity)
                  ltac:(apply failsClean_no_capture; repeat constructor))).
  exists 2%nat. split; [simpl; lia | vm_compute; reflexivity].
Defined.

(** C1 as stated fails when a pattern after the rest element commits a
    cell in an attempt that fails: for [ds(ooo(_), x, 5)] against
    (1, 2, 5) the split of length 1 succeeds ([x] takes 2, and 5 is 5),
    yet the match returns false: the attempt at length 0 has committed
    [x] to 1, and nothing undoes it. *)
Lemma C1_counterexample :
  (exists K,
      (K <= length [VInt 1; VInt 2; VInt 5] - length (@nil Pattern))%nat
      /\ succeeds (splitAttempt [] PWildcard [PId 0; PLit 5]
                     [VInt 1; VInt 2; VInt 5] K ∅) = true)
  /\ splitAttempt [] PWildcard [PId 0; PLit 5] [VInt 1; VInt 2; VInt 5] 1 ∅
     = Ret true {[ 0%nat := 2 ]}
  /\ matchPattern (VTuple [VInt 1; VInt 2; VInt 5])
       (PDs ([] ++ POoo PWildcard :: [PId 0; PLit 5])) ∅
     = Ret false {[ 0%nat := 1 ]}.
Proof.
  split; [|split].
  - exists 1%nat. split; [simpl; lia | vm_compute; reflexivity].
  - vm_compute. reflexivity.
  - vm_compute. reflexivity.
Qed.

(** C2, as the code has it.  Where the match compiles and the patterns
    after the rest element leave the cells as they were whenever they
    fail, the ascending search with its abort returns what the search
    over every split length returns; the patterns before the rest
    element and the rest's sub-pattern capture freely.  For
    [ds(ooo(isEven), 5)]: against (2, 4, 5) the helpers for 0 and 1
    return false and the helper for 2 returns true; against (2, 3, 5)
    the helpers for 0 and 1 return false and the helper for 2 throws on
    the value 3, which ends the fold, so the match returns false;
    against (2, 4, 6) every helper returns false and so does the
    match. *)
Theorem C2_pruned_search_exhaustive :
  (forall pre q post vs s,
      Forall (fun p => isOoo p = false) pre ->
      Forall (fun p => isOoo p = false) post ->
      Instantiates (PDs (pre ++ POoo q :: post)) (typeOf (VTuple vs)) = true ->
      failsClean pre q post vs s ->
      (exists s', matchPattern (VTuple vs) (PDs (pre ++ POoo q :: post)) s
                  = Ret (exhaustiveSearch pre q post vs s) s')
      /\ (Forall (readsOnly s) (pre ++ POoo q :: post) ->
          matchPattern (VTuple vs) (PDs (pre ++ POoo q :: post)) s
          = Ret (exhaustiveSearch pre q post vs s) s))
  /\ (let helper I vs :=
        tryOooMatchImplHelper matchPatternImpl (POoo (PMeet isEven))
          (tryOooMatch matchPatternImpl [PLit 5]) I vs ∅ in
      let sequence := PDs [POoo (PMeet isEven); PLit 5] in
      (helper 0%nat [VInt 2; VInt 4; VInt 5] = Ret false ∅
       /\ helper 1%nat [VInt 2; VInt 4; VInt 5] = Ret false ∅
       /\ helper 2%nat [VInt 2; VInt 4; VInt 5] = Ret true ∅
       /\ matchPattern (VTuple [VInt 2; VInt 4; VInt 5]) sequence ∅ = Ret true ∅)
      /\ (helper 0%nat [VInt 2; VInt 3; VInt 5] = Ret false ∅
          /\ helper 1%nat [VInt 2; VInt 3; VInt 5] = Ret false ∅
          /\ helper 2%nat [VInt 2; VInt 3; VInt 5] = OooMatchBreak ∅
          /\ oooFold matchPatternImpl (POoo (PMeet isEven))
               (tryOooMatch matchPatternImpl [PLit 5]) [0; 1; 2; 3]%nat
               [VInt 2; VInt 3; VInt 5] ∅ = OooMatchBreak ∅
          /\ matchPattern (VTuple [VInt 2; VInt 3; VInt 5]) sequence ∅
             = Ret false ∅)
      /\ (helper 0%nat [VInt 2; VInt 4; VInt 6] = Ret false ∅
          /\ helper 1%nat [VInt 2; VInt 4; VInt 6] = Ret false ∅
          /\ helper 2%nat [VInt 2; VInt 4; VInt 6] = Ret false ∅
          /\ helper 3%nat [VInt 2; VInt 4; VInt 6] = Ret false ∅
          /\ matchPattern (VTuple [VInt 2; VInt 4; VInt 6]) sequence ∅
             = Ret false ∅)).
Proof.
  split.
  - intros pre q post vs s Hpre Hpost Hinst Hclean.
    destruct (rest_search_threaded pre q post vs s Hpre Hpost Hinst Hclean)
      as [s0 E].
    split; [eauto|]. intros Hro. rewrite E. f_equal.
    eapply readsOnly_sequence_store; eassumption.
  - cbv zeta. repeat match goal with |- _ /\ _ => split end;
      vm_compute; reflexivity.
Qed.

(** [ds(x, ooo(y), 5)]: captures before and inside the rest element. *)
Lemma C2_pruned_search_exhaustive_witness :
  exists s',
    matchPattern (VTuple [VInt 1; VInt 7; VInt 7; VInt 5])
      (PDs ([PId 0] ++ POoo (PId 1) :: [PLit 5])) ∅
    = Ret (exhaustiveSearch [PId 0] (PId 1) [PLit 5]
             [VInt 1; VInt 7; VInt 7; VInt 5] ∅) s'.
Proof.
  apply (proj1 C2_pruned_search_exhaustive [PId 0] (PId 1) [PLit 5]
           [VInt 1; VInt 7; VInt 7; VInt 5] ∅).
  - repeat constructor.
  - repeat constructor.
  - vm_compute. reflexivity.
  - apply failsClean_no_capture. repeat constructor.
Defined.

(** C2 as stated fails twice.  Against (2, 3, 5) the helper for 1 does
    not abort: its element is 2, it tests what follows and returns
    false; the abort comes from the helper for 2, on the value 3.  And
    when a pattern after the rest element commits a cell in an attempt
    that fails the two searches differ: for [ds(ooo(_), x, 5)] against
    (1, 2, 5) the code returns false while the split of length 1
    succeeds. *)
Lemma C2_counterexample :
  tryOooMatchImplHelper matchPatternImpl (POoo (PMeet isEven))
    (tryOooMatch matchPatternImpl [PLit 5]) 1 [VInt 2; VInt 3; VInt 5] ∅
  = Ret false ∅
  /\ tryOooMatchImplHelper matchPatternImpl (POoo (PMeet isEven))
       (tryOooMatch matchPatternImpl [PLit 5]) 2 [VInt 2; VInt 3; VInt 5] ∅
     = OooMatchBreak ∅
  /\ matchPattern (VTuple [VInt 1; VInt 2; VInt 5])
       (PDs ([] ++ POoo PWildcard :: [PId 0; PLit 5])) ∅
     = Ret false {[ 0%nat := 1 ]}
  /\ exhaustiveSearch [] PWildcard [PId 0; PLit 5]
       [VInt 1; VInt 2; VInt 5] ∅ = true.
Proof.
  repeat match goal with |- _ /\ _ => split end; vm_compute; reflexivity.
Qed.

(** * Further properties of the engine *)

(** ** [And]: left to right, stopping at the first failure *)

Lemma matchPattern_and_nil v s : matchPattern v (PAnd []) s = Ret true s.
Proof. reflexivity. Qed.

Lemma MatchFuncDefined_and_cons p ps t :
  MatchFuncDefined (PAnd (p :: ps)) t = true ->
  MatchFuncDefined p t = true /\ MatchFuncDefined (PAnd ps) t = true.
Proof. cbn [MatchFuncDefined forallb]. apply andb_prop. Qed.

Lemma matchPattern_and_cons v p ps s :
  MatchFuncDefined (PAnd (p :: ps)) (typeOf v) = true ->
  matchPattern v (PAnd (p :: ps)) s
  = andAlso (matchPattern v p) (matchPattern v (PAnd ps)) s.
Proof.
  intros H. unfold matchPattern at 1. rewrite H.
  apply MatchFuncDefined_and_cons in H as [Hp Hps].
  unfold matchPattern, andAlso. rewrite Hp, Hps. reflexivity.
Qed.

Lemma and_first_failure v p ps2 s1 s2 ps1 : forall s,
  MatchFuncDefined (PAnd (ps1 ++ p :: ps2)) (typeOf v) = true ->
  allSucceed v ps1 s s1 ->
  matchPattern v p s1 = Ret false s2 ->
  matchPattern v (PAnd (ps1 ++ p :: ps2)) s = Ret false s2.
Proof.
  induction ps1 as [|q ps1 IH]; intros s Hdef Hok Hp;
    inversion Hok as [|? ? ? s0 ? H1 Htl]; subst.
  - cbn [app] in *. rewrite (matchPattern_and_cons _ _ _ _ Hdef).
    unfold andAlso. rewrite Hp. reflexivity.
  - cbn [app] in *. rewrite (matchPattern_and_cons _ _ _ _ Hdef).
    apply MatchFuncDefined_and_cons in Hdef as [_ Hdef].
    unfold andAlso. rewrite H1. apply IH; assumption.
Qed.

Lemma and_failure_inv v ps : forall s s2,
  MatchFuncDefined (PAnd ps) (typeOf v) = true ->
  matchPattern v (PAnd ps) s = Ret false s2 ->
  exists ps1 p ps2 s1,
    ps = ps1 ++ p :: ps2 /\ allSucceed v ps1 s s1
    /\ matchPattern v p s1 = Ret false s2.
Proof.
  induction ps as [|q ps IH]; intros s s2 Hdef H.
  - rewrite matchPattern_and_nil in H. discriminate.
  - rewrite (matchPattern_and_cons _ _ _ _ Hdef) in H.
    apply MatchFuncDefined_and_cons in Hdef as [_ Hdef]. unfold andAlso in H.
    destruct (matchPattern v q s) as [[|] s1|s1|] eqn:Hq; try discriminate.
    + destruct (IH s1 s2 Hdef H) as (ps1 & p & ps2 & s1' & -> & Hf & Hp).
      exists (q :: ps1), p, ps2, s1'. split; [reflexivity|].
      split; [econstructor; eassumption | exact Hp].
    + injection H as ->. exists [], q, ps, s.
      split; [reflexivity|]. split; [constructor | exact Hq].
Qed.

Lemma and_success_iff v ps : forall s s',
  MatchFuncDefined (PAnd ps) (typeOf v) = true ->
  matchPattern v (PAnd ps) s = Ret true s' <-> allSucceed v ps s s'.
Proof.
  induction ps as [|q ps IH]; intros s s' Hdef.
  - rewrite matchPattern_and_nil. split.
    + intros [= ->]. constructor.
    + intros H. inversion H. reflexivity.
  - rewrite (matchPattern_and_cons _ _ _ _ Hdef).
    apply MatchFuncDefined_and_cons in Hdef as [_ Hdef]. unfold andAlso. split.
    + destruct (matchPattern v q s) as [[|] s1|s1|] eqn:Hq; try discriminate.
      intros H. econstructor; [exact Hq|]. apply IH; assumption.
    + intros H. inversion H as [|? ? ? s1 ? Hq Htl]; subst.
      rewrite Hq. apply IH; assumption.
Qed.

(** X1.  [And] tries its conjuncts from left to right.  When the
    conjuncts before [p] have succeeded in turn and [p] fails, the match
    returns false with the cells as [p] left them, whatever follows [p]:
    the later conjuncts are not evaluated.  A false result always arises
    this way, and the result is true exactly when every conjunct has
    succeeded in turn. *)
Theorem X1_and_short_circuit v ps s :
  MatchFuncDefined (PAnd ps) (typeOf v) = true ->
  (forall ps1 p ps2 s1 s2,
      ps = ps1 ++ p :: ps2 -> allSucceed v ps1 s s1 ->
      matchPattern v p s1 = Ret false s2 ->
      matchPattern v (PAnd ps) s = Ret false s2)
  /\ (forall s2, matchPattern v (PAnd ps) s = Ret false s2 ->
        exists ps1 p ps2 s1,
          ps = ps1 ++ p :: ps2 /\ allSucceed v ps1 s s1
          /\ matchPattern v p s1 = Ret false s2)
  /\ (forall s', matchPattern v (PAnd ps) s = Ret true s' <-> allSucceed v ps s s').
Proof.
  intros Hdef. split; [|split].
  - intros ps1 p ps2 s1 s2 -> Hf Hp. eapply and_first_failure; eassumption.
  - intros s2. apply and_failure_inv. exact Hdef.
  - intros s'. apply and_success_iff. exact Hdef.
Qed.

(** The capture is made, the literal fails, the last capture is not
    reached. *)
Lemma X1_and_short_circuit_witness :
  matchPattern (VInt 3) (PAnd [PId 0; PLit 1; PId 1]) ∅
  = Ret false {[ 0%nat := 3 ]}.
Proof.
  apply (proj1 (X1_and_short_circuit (VInt 3) [PId 0; PLit 1; PId 1] ∅ eq_refl)
           [PId 0] (PLit 1) [PId 1] {[ 0%nat := 3 ]} {[ 0%nat := 3 ]} eq_refl).
  - apply (allSucceed_cons _ (PId 0) [] ∅ {[ 0%nat := 3 ]} {[ 0%nat := 3 ]});
      [vm_compute; reflexivity | constructor].
  - vm_compute. reflexivity.
Defined.

(** ** Negation and nesting of the combinators *)

Lemma MatchFuncDefined_map_not ps t :
  forallb (fun q => MatchFuncDefined q t) (map PNot ps)
  = forallb (fun q => MatchFuncDefined q t) ps.
Proof.
  induction ps as [|p ps IH]; [reflexivity|].
  cbn [map forallb MatchFuncDefined]. rewrite IH. reflexivity.
Qed.

Lemma not_or_impl v ps : forall s,
  match orPatterns matchPatternImpl ps v s with
  | Ret b s' => Ret (negb b) s'
  | o => o
  end
  = andPatterns matchPatternImpl (map PNot ps) v s.
Proof.
  induction ps as [|p ps IH]; intros s; [reflexivity|].
  cbn [map orPatterns andPatterns matchPatternImpl]. unfold orElse, andAlso.
  destruct (matchPatternImpl p v s) as [[|] s1|s1|]; cbn [negb]; auto.
Qed.

Lemma not_and_impl v ps : forall s,
  match andPatterns matchPatternImpl ps v s with
  | Ret b s' => Ret (negb b) s'
  | o => o
  end
  = orPatterns matchPatternImpl (map PNot ps) v s.
Proof.
  induction ps as [|p ps IH]; intros s; [reflexivity|].
  cbn [map orPatterns andPatterns matchPatternImpl]. unfold orElse, andAlso.
  destruct (matchPatternImpl p v s) as [[|] s1|s1|]; cbn [negb]; auto.
Qed.

(** X2.  De Morgan with effects: [not_(or_(ps...))] and
    [and_(not_(ps)...)] return the same result and leave the same cells,
    likewise [not_(and_(ps...))] and [or_(not_(ps)...)], and a double
    negation is the pattern itself. *)
Theorem X2_negation_laws v s :
  (forall ps, matchPattern v (PNot (POr ps)) s
              = matchPattern v (PAnd (map PNot ps)) s)
  /\ (forall ps, matchPattern v (PNot (PAnd ps)) s
                 = matchPattern v (POr (map PNot ps)) s)
  /\ (forall p, matchPattern v (PNot (PNot p)) s = matchPattern v p s).
Proof.
  split; [|split].
  - intros ps. unfold matchPattern. cbn [MatchFuncDefined].
    rewrite MatchFuncDefined_map_not.
    destruct (forallb _ ps); [|reflexivity].
    cbn [matchPatternImpl]. apply not_or_impl.
  - intros ps. unfold matchPattern. cbn [MatchFuncDefined].
    rewrite MatchFuncDefined_map_not.
    destruct (forallb _ ps); [|reflexivity].
    cbn [matchPatternImpl]. apply not_and_impl.
  - intros p. unfold matchPattern. cbn [MatchFuncDefined matchPatternImpl].
    destruct (MatchFuncDefined p (typeOf v)); [|reflexivity].
    destruct (matchPatternImpl p v s) as [[|] s1|s1|]; reflexivity.
Qed.

Lemma orPatterns_app matchp ps1 ps2 v : forall s,
  orPatterns matchp (ps1 ++ ps2) v s
  = orElse (orPatterns matchp ps1 v) (orPatterns matchp ps2 v) s.
Proof.
  induction ps1 as [|p ps1 IH]; intros s; [reflexivity|].
  cbn [app orPatterns]. unfold orElse in *.
  destruct (matchp p v s) as [[|] s1|s1|]; auto.
Qed.

Lemma andPatterns_app matchp ps1 ps2 v : forall s,
  andPatterns matchp (ps1 ++ ps2) v s
  = andAlso (andPatterns matchp ps1 v) (andPatterns matchp ps2 v) s.
Proof.
  induction ps1 as [|p ps1 IH]; intros s; [reflexivity|].
  cbn [app andPatterns]. unfold andAlso in *.
  destruct (matchp p v s) as [[|] s1|s1|]; auto.
Qed.

(** X3.  Nesting flattens: an [Or] whose first alternative is an [Or]
    matches as the [Or] of all the alternatives in order, and the same
    for [And]; results and cells agree. *)
Theorem X3_nesting_flattens v ps1 ps2 s :
  matchPattern v (POr (POr ps1 :: ps2)) s = matchPattern v (POr (ps1 ++ ps2)) s
  /\ matchPattern v (PAnd (PAnd ps1 :: ps2)) s
     = matchPattern v (PAnd (ps1 ++ ps2)) s.
Proof.
  split; unfold matchPattern; cbn [MatchFuncDefined forallb];
    rewrite forallb_app;
    destruct (forallb _ ps1 && forallb _ ps2); try reflexivity;
    cbn [matchPatternImpl orPatterns andPatterns].
  - rewrite orPatterns_app. reflexivity.
  - rewrite andPatterns_app. reflexivity.
Qed.

(** ** Sequences without a rest element *)

Lemma fixedMatch_length ps : forall vs s s',
  fixedMatch ps vs s = Ret true s' -> length ps = length vs.
Proof.
  induction ps as [|p ps IH]; intros [|v vs] s s' H; cbn [fixedMatch] in H;
    try discriminate; [reflexivity|].
  unfold andAlso in H.
  destruct (matchPattern v p s) as [[|] s1|s1|]; try discriminate.
  cbn [length]. f_equal. eapply IH, H.
Qed.

Lemma tupleMatchImpl_fixedMatch ps : forall vs s,
  Forall (fun p => isOoo p = false) ps ->
  MatchFuncDefined (PDs ps) (typeOf (VTuple vs)) = true ->
  tupleMatchImpl matchPatternImpl ps vs s = fixedMatch ps vs s.
Proof.
  induction ps as [|p ps IH]; intros vs s Hno Hdef.
  - destruct vs; reflexivity.
  - inversion Hno as [|? ? Hp Htl]; subst.
    cbn [MatchFuncDefined typeOf tupleMatchDefined] in Hdef. rewrite Hp in Hdef.
    destruct vs as [|v0 vs]; [discriminate|]. cbn [map] in Hdef.
    apply andb_prop in Hdef as [Hd0 Hdef].
    cbn [tupleMatchImpl fixedMatch]. rewrite Hp. unfold andAlso.
    rewrite (matchPattern_defined _ _ _ Hd0).
    destruct (matchPatternImpl p v0 s) as [[|] s1|s1|]; try reflexivity.
    apply IH; assumption.
Qed.

(** X4.  A sequence pattern without a rest element matches a tuple
    element by element, in order, ending at the first element that
    fails: it returns true exactly when the lengths agree and every
    element has matched in turn, and its outcome, cells included, is
    that of the element-wise conjunction. *)
Theorem X4_sequence_elementwise ps vs s :
  Forall (fun p => isOoo p = false) ps ->
  MatchFuncDefined (PDs ps) (typeOf (VTuple vs)) = true ->
  matchPattern (VTuple vs) (PDs ps) s = fixedMatch ps vs s
  /\ (forall s', matchPattern (VTuple vs) (PDs ps) s = Ret true s' ->
        length ps = length vs).
Proof.
  intros Hno Hdef.
  assert (E : matchPattern (VTuple vs) (PDs ps) s = fixedMatch ps vs s).
  { rewrite matchPattern_defined by exact Hdef.
    apply tupleMatchImpl_fixedMatch; assumption. }
  split; [exact E|]. intros s' H. rewrite E in H. eapply fixedMatch_length, H.
Qed.

Lemma X4_sequence_elementwise_witness :
  matchPattern (VTuple [VInt 1; VInt 2]) (PDs [PId 0; PLit 2]) ∅
  = fixedMatch [PId 0; PLit 2] [VInt 1; VInt 2] ∅.
Proof.
  apply (proj1 (X4_sequence_elementwise [PId 0; PLit 2] [VInt 1; VInt 2] ∅
                  ltac:(repeat constructor) eq_refl)).
Defined.

(** ** A rest element at the end *)

Lemma andAlso_Ret_true (a : Comp) s : andAlso a (Ret true) s = a s.
Proof. unfold andAlso. destruct (a s) as [[|] s1|s1|]; reflexivity. Qed.

Lemma drop_past_middle (done : list Value) v todo :
  drop (S (length done)) (done ++ v :: todo) = todo.
Proof. induction done as [|d done IH]; [reflexivity | exact IH]. Qed.

Lemma trailing_fold q todo : forall done s,
  todo <> [] ->
  MatchFuncDefined (POoo q) (typeOf (VTuple (done ++ todo))) = true ->
  match oooFold matchPatternImpl (POoo q) (tryOooMatch matchPatternImpl [])
          (seq (S (length done)) (length todo)) (done ++ todo) s with
  | OooMatchBreak s' => Ret false s'
  | o => o
  end
  = oooAll (matchPatternImpl q) todo s.
Proof.
  induction todo as [|v todo IH]; intros done s Hne Hdef; [congruence|].
  cbn [length seq oooFold tryOooMatchImplHelper oooAll].
  assert (Hst : MatchFuncDefined (POoo q)
                  (typeOf (VTuple (take (S (length done)) (done ++ v :: todo))))
                = true).
  { apply ooo_static_check. apply Forall_take. apply ooo_static_check, Hdef. }
  unfold orElse at 1. rewrite Hst.
  rewrite (list_lookup_middle done todo v (length done) eq_refl).
  cbn [matchPatternImplSingle]. unfold andAlso at 1.
  pose proof (matchPatternImpl_noBreak q v s) as Hnb.
  destruct (matchPatternImpl q v s) as [[|] s1|s1|]; try reflexivity.
  - rewrite drop_past_middle.
    destruct todo as [|v' todo'].
    + reflexivity.
    + cbn [tryOooMatch]. replace (bool_decide _) with false by reflexivity.
      specialize (IH (done ++ [v]) s1 ltac:(discriminate)).
      rewrite <- app_assoc in IH. cbn [app] in IH.
      rewrite length_app in IH. cbn [length] in IH.
      replace (length done + 1)%nat with (S (length done)) in IH by lia.
      apply IH, Hdef.
  - exfalso. exact (Hnb s1 eq_refl).
Qed.

Lemma tryOooMatch_trailing q vs s :
  MatchFuncDefined (POoo q) (typeOf (VTuple vs)) = true ->
  tryOooMatch matchPatternImpl [POoo q] vs s = oooAll (matchPatternImpl q) vs s.
Proof.
  intros Hdef. cbn [tryOooMatch isOoo]. unfold tryOooMatchImpl.
  replace (length vs + 1)%nat with (S (length vs)) by lia.
  cbn [seq oooFold tryOooMatchImplHelper]. unfold orElse at 1.
  destruct vs as [|v vs]; [reflexivity|].
  cbn [tryOooMatch]. replace (bool_decide _) with false by reflexivity.
  apply (trailing_fold q (v :: vs) [] s); [discriminate | exact Hdef].
Qed.

(** X5.  A rest element at the end of a sequence matches what remains
    exactly as [Ooo]'s own rule matches a tuple: its sub-pattern is tried
    on each remaining value in order, with the cells of one value carried
    to the next, and the first failure ends the match.  This holds for
    sub-patterns that capture, too.  In particular [ds(ooo(_))] matches
    every tuple and writes nothing. *)
Theorem X5_trailing_rest :
  (forall pre q vs s,
      Forall (fun p => isOoo p = false) pre ->
      MatchFuncDefined (PDs (pre ++ [POoo q])) (typeOf (VTuple vs)) = true ->
      MatchFuncDefined (POoo q) (typeOf (VTuple (drop (length pre) vs))) = true ->
      matchPattern (VTuple vs) (PDs (pre ++ [POoo q])) s
      = andAlso (fixedMatch pre (take (length pre) vs))
          (matchPattern (VTuple (drop (length pre) vs)) (POoo q)) s)
  /\ (forall vs s, matchPattern (VTuple vs) (PDs [POoo PWildcard]) s = Ret true s).
Proof.
  split.
  - intros pre q vs s Hno Hdef Hq.
    rewrite matchPattern_defined by exact Hdef. cbn [matchPatternImpl].
    destruct (tupleMatchImpl_prefix q [] pre vs s Hno Hdef) as [_ ->].
    unfold andAlso.
    destruct (fixedMatch pre (take (length pre) vs) s) as [[|] s1|s1|];
      try reflexivity.
    rewrite matchPattern_defined by exact Hq. cbn [matchPatternImpl].
    apply tryOooMatch_trailing, Hq.
  - intros vs s.
    assert (Hdef : MatchFuncDefined (POoo PWildcard) (typeOf (VTuple vs)) = true).
    { apply ooo_static_check. apply Forall_forall. reflexivity. }
    rewrite matchPattern_defined by reflexivity. cbn [matchPatternImpl tupleMatchImpl isOoo].
    rewrite tryOooMatch_trailing by exact Hdef.
    induction vs as [|v vs IH]; [reflexivity|].
    cbn [oooAll matchPatternImpl]. unfold andAlso.
    apply IH. apply ooo_static_check. apply Forall_forall. reflexivity.
Qed.

Lemma X5_trailing_rest_witness :
  matchPattern (VTuple [VInt 1; VInt 7; VInt 7]) (PDs ([PLit 1] ++ [POoo (PId 0)])) ∅
  = andAlso (fixedMatch [PLit 1] [VInt 1])
      (matchPattern (VTuple [VInt 7; VInt 7]) (POoo (PId 0))) ∅.
Proof.
  apply (proj1 X5_trailing_rest [PLit 1] (PId 0) [VInt 1; VInt 7; VInt 7] ∅).
  - repeat constructor.
  - reflexivity.
  - reflexivity.
Defined.

(** ** More on [resetId] *)

(** X6.  [resetId] only clears: a cell that is committed after the call
    was committed to the same value before it, and a cell that the
    pattern does not name is left as it was. *)
Theorem X6_resetId_frame p s c :
  (forall z, resetId p s !! c = Some z -> s !! c = Some z)
  /\ (~ In c (cells p) -> resetId p s !! c = s !! c).
Proof.
  destruct (resetId_lookup p s c) as [Hin Hout]. split; [|exact Hout].
  intros z H. destruct (in_dec Nat.eq_dec c (cells p)) as [Hc|Hc].
  - rewrite (Hin Hc) in H. discriminate.
  - rewrite (Hout Hc) in H. exact H.
Qed.

Lemma X6_resetId_frame_witness :
  resetId (PDs [PId 0; POoo (PId 1)]) {[ 0%nat := 5; 7%nat := 9 ]} !! 7%nat
  = ({[ 0%nat := 5; 7%nat := 9 ]} : Store) !! 7%nat.
Proof.
  apply (proj2 (X6_resetId_frame (PDs [PId 0; POoo (PId 1)])
                  {[ 0%nat := 5; 7%nat := 9 ]} 7%nat)).
  simpl. intros [H|[H|[]]]; discriminate.
Defined.

Lemma resetId_decide p s c :
  resetId p s !! c
  = if in_dec Nat.eq_dec c (cells p) then None else s !! c.
Proof.
  destruct (resetId_lookup p s c) as [Hin Hout].
  destruct (in_dec Nat.eq_dec c (cells p)); auto.
Qed.

(** X7.  Resetting twice is resetting once, and the resets of two
    patterns commute, whether or not they share cells. *)
Theorem X7_resetId_idempotent_commutes p q s :
  resetId p (resetId p s) = resetId p s
  /\ resetId p (resetId q s) = resetId q (resetId p s).
Proof.
  split; apply map_eq; intros c; rewrite !resetId_decide;
    destruct (in_dec Nat.eq_dec c (cells p));
    destruct (in_dec Nat.eq_dec c (cells q)); reflexivity.
Qed.

(** ** What a match writes *)

Lemma grows_refl D s : grows D s s.
Proof. intros c _. reflexivity. Qed.

Lemma grows_trans D s1 s2 s3 : grows D s1 s2 -> grows D s2 s3 -> grows D s1 s3.
Proof.
  intros H12 H23 c Hc. rewrite <- (H12 c Hc). apply H23.
  destruct Hc as [Hc|Hc]; [left; rewrite (H12 c (or_introl Hc)); exact Hc | right; exact Hc].
Qed.

Lemma grows_mono (D D' : nat -> Prop) s s' :
  (forall c, D c -> D' c) -> grows D s s' -> grows D' s s'.
Proof.
  intros HD H c [Hc|Hc]; apply H; [left; exact Hc | right; auto].
Qed.

Lemma outcomeGrows_mono (D D' : nat -> Prop) s o :
  (forall c, D c -> D' c) -> outcomeGrows D s o -> outcomeGrows D' s o.
Proof.
  intros HD. destruct o; cbn; try apply grows_mono; auto.
Qed.

Lemma outcomeGrows_step D s s1 o :
  grows D s s1 -> outcomeGrows D s1 o -> outcomeGrows D s o.
Proof.
  intros H. destruct o; cbn; try apply grows_trans; auto.
Qed.

Lemma outcomeGrows_andAlso D (a b : Comp) s :
  outcomeGrows D s (a s) -> (forall s1, outcomeGrows D s1 (b s1)) ->
  outcomeGrows D s (andAlso a b s).
Proof.
  unfold andAlso. intros Ha Hb.
  destruct (a s) as [[|] s1|s1|]; auto.
  eapply outcomeGrows_step; [exact Ha | apply Hb].
Qed.

Lemma outcomeGrows_orElse D (a b : Comp) s :
  outcomeGrows D s (a s) -> (forall s1, outcomeGrows D s1 (b s1)) ->
  outcomeGrows D s (orElse a b s).
Proof.
  unfold orElse. intros Ha Hb.
  destruct (a s) as [[|] s1|s1|]; auto.
  eapply outcomeGrows_step; [exact Ha | apply Hb].
Qed.

Section GrowRules.
Variable matchp : Pattern -> Value -> Store -> Outcome.

Let inCells (ps : list Pattern) (c : nat) : Prop := In c (flat_map cells ps).

Let growP (p : Pattern) : Prop :=
  (forall v s, outcomeGrows (fun c => In c (cells p)) s (matchp p v s))
  /\ (forall v s, outcomeGrows (fun c => In c (cells p)) s
                    (matchPatternImplSingle matchp p v s)).

Lemma orPatterns_grows ps v :
  Forall growP ps -> forall s, outcomeGrows (inCells ps) s (orPatterns matchp ps v s).
Proof.
  induction 1 as [|p tl [Hp _] _ IH]; intros s; cbn [orPatterns].
  - apply grows_refl.
  - apply outcomeGrows_orElse.
    + eapply outcomeGrows_mono; [|apply Hp].
      intros c Hc. apply in_or_app. left. exact Hc.
    + intros s1. eapply outcomeGrows_mono; [|apply IH].
      intros c Hc. apply in_or_app. right. exact Hc.
Qed.

Lemma andPatterns_grows ps v :
  Forall growP ps -> forall s, outcomeGrows (inCells ps) s (andPatterns matchp ps v s).
Proof.
  induction 1 as [|p tl [Hp _] _ IH]; intros s; cbn [andPatterns].
  - apply grows_refl.
  - apply outcomeGrows_andAlso.
    + eapply outcomeGrows_mono; [|apply Hp].
      intros c Hc. apply in_or_app. left. exact Hc.
    + intros s1. eapply outcomeGrows_mono; [|apply IH].
      intros c Hc. apply in_or_app. right. exact Hc.
Qed.

Lemma oooAll_grows D (single : Value -> Comp) vs :
  (forall v s, outcomeGrows D s (single v s)) ->
  forall s, outcomeGrows D s (oooAll single vs s).
Proof.
  intros H. induction vs as [|v tl IH]; intros s; cbn [oooAll].
  - apply grows_refl.
  - apply outcomeGrows_andAlso; auto.
Qed.

Lemma tryOooMatchImplHelper_grows D head (rest : list Value -> Comp) I values :
  (forall v s, outcomeGrows D s (matchPatternImplSingle matchp head v s)) ->
  (forall vs s, outcomeGrows D s (rest vs s)) ->
  forall s, outcomeGrows D s (tryOooMatchImplHelper matchp head rest I values s).
Proof.
  intros Hsingle Hrest s. destruct I as [|i]; cbn [tryOooMatchImplHelper].
  - apply Hrest.
  - destruct (MatchFuncDefined head _); [|apply grows_refl].
    destruct (values !! i) as [v|]; [|exact Logic.I].
    specialize (Hsingle v s).
    destruct (matchPatternImplSingle matchp head v s) as [[|] s1|s1|]; auto.
    eapply outcomeGrows_step; [exact Hsingle | apply Hrest].
Qed.

Lemma tryOooMatchImpl_grows D head (rest : list Value -> Comp) values Is :
  (forall v s, outcomeGrows D s (matchPatternImplSingle matchp head v s)) ->
  (forall vs s, outcomeGrows D s (rest vs s)) ->
  forall s, outcomeGrows D s (tryOooMatchImpl matchp head rest values Is s).
Proof.
  intros Hsingle Hrest s. unfold tryOooMatchImpl.
  assert (H : outcomeGrows D s (oooFold matchp head rest Is values s)).
  { revert s. induction Is as [|K tl IH]; intros s; cbn [oooFold].
    - apply grows_refl.
    - apply outcomeGrows_orElse; [|exact IH].
      apply tryOooMatchImplHelper_grows; assumption. }
  destruct (oooFold matchp head rest Is values s); exact H.
Qed.

Lemma tryOooMatch_grows ps : forall vs s,
  Forall growP ps -> outcomeGrows (inCells ps) s (tryOooMatch matchp ps vs s).
Proof.
  induction ps as [|p tl IH]; intros vs s H; cbn [tryOooMatch].
  - apply grows_refl.
  - inversion H as [|? ? [Hp Hsingle] Htl]; subst.
    destruct (isOoo p).
    + apply tryOooMatchImpl_grows.
      * intros v s1. eapply outcomeGrows_mono; [|apply Hsingle].
        intros c Hc. apply in_or_app. left. exact Hc.
      * intros vs1 s1. eapply outcomeGrows_mono; [|apply IH, Htl].
        intros c Hc. apply in_or_app. right. exact Hc.
    + destruct vs as [|v0 vs]; [apply grows_refl|].
      destruct (MatchFuncDefined p (typeOf v0)); [|apply grows_refl].
      apply outcomeGrows_andAlso.
      * eapply outcomeGrows_mono; [|apply Hp].
        intros c Hc. apply in_or_app. left. exact Hc.
      * intros s1. eapply outcomeGrows_mono; [|apply IH, Htl].
        intros c Hc. apply in_or_app. right. exact Hc.
Qed.

Lemma tupleMatchImpl_grows ps : forall vs s,
  Forall growP ps -> outcomeGrows (inCells ps) s (tupleMatchImpl matchp ps vs s).
Proof.
  induction ps as [|p tl IH]; intros vs s H.
  - apply grows_refl.
  - cbn [tupleMatchImpl]. destruct (isOoo p).
    + apply tryOooMatch_grows, H.
    + inversion H as [|? ? [Hp _] Htl]; subst.
      destruct vs as [|v0 vs]; [exact Logic.I|].
      apply outcomeGrows_andAlso.
      * eapply outcomeGrows_mono; [|apply Hp].
        intros c Hc. apply in_or_app. left. exact Hc.
      * intros s1. eapply outcomeGrows_mono; [|apply IH, Htl].
        intros c Hc. apply in_or_app. right. exact Hc.
Qed.
End GrowRules.

Lemma grow_elements ps :
  Forall (fun p => guardsRead p ->
            forall v s, outcomeGrows (fun c => In c (cells p)) s
                          (matchPatternImpl p v s)) ps ->
  Forall guardsRead ps ->
  Forall (fun p =>
            (forall v s, outcomeGrows (fun c => In c (cells p)) s
                           (matchPatternImpl p v s))
            /\ (forall v s, outcomeGrows (fun c => In c (cells p)) s
                              (matchPatternImplSingle matchPatternImpl p v s)))
    ps.
Proof.
  intros IH Hg. induction Hg as [|p tl Hp _ IHtl];
    inversion IH as [|? ? Hp' Htl']; subst; constructor; auto.
  specialize (Hp' Hp). split; [exact Hp'|].
  destruct p; try (intros v s; exact Logic.I).
  intros v s. specialize (Hp' (VTuple [v]) s).
  cbn [matchPatternImpl oooAll matchPatternImplSingle cells] in *.
  rewrite andAlso_Ret_true in Hp'. exact Hp'.
Qed.

Lemma matchPatternImpl_grows p :
  guardsRead p ->
  forall v s, outcomeGrows (fun c => In c (cells p)) s (matchPatternImpl p v s).
Proof.
  induction p using Pattern_nested_ind; intros Hg v s;
    inversion Hg; subst; cbn [matchPatternImpl cells].
  - destruct v; [apply grows_refl | exact Logic.I].
  - apply grows_refl.
  - apply orPatterns_grows, grow_elements; assumption.
  - destruct v; [apply grows_refl | exact Logic.I].
  - destruct v; [apply IHp; assumption | exact Logic.I].
  - apply andPatterns_grows, grow_elements; assumption.
  - specialize (IHp ltac:(assumption) v s).
    destruct (matchPatternImpl p v s); exact IHp.
  - destruct v; [|exact Logic.I].
    destruct (s !! cell) eqn:Hc; [apply grows_refl|].
    intros c Hor. apply lookup_insert_ne. intros ->.
    destruct Hor as [[w Hw]|Hn]; [congruence | apply Hn; left; reflexivity].
  - destruct v as [z|vs].
    + destruct ps; [apply grows_refl | exact Logic.I].
    + apply tupleMatchImpl_grows, grow_elements; assumption.
  - destruct v as [z|vs]; [exact Logic.I|].
    apply oooAll_grows. intros v s1. apply IHp. assumption.
  - specialize (IHp ltac:(assumption) v s).
    destruct (matchPatternImpl p v s) as [[|] s1|s1|]; try exact IHp.
    match goal with H : forall s', snd (pred s') = s' |- _ =>
      specialize (H s1) end.
    destruct (pred s1) as [b s2]. simpl in *. subst. exact IHp.
Qed.

(** X8.  A match whose guards only read writes nothing but cells of its
    own pattern that were uncommitted: a cell committed before the match
    keeps its value through it, whatever the result, and a cell the
    pattern does not name is left as it was. *)
Theorem X8_match_commits_once v p s b s' :
  guardsRead p ->
  matchPattern v p s = Ret b s' ->
  (forall c z, s !! c = Some z -> s' !! c = Some z)
  /\ (forall c, ~ In c (cells p) -> s' !! c = s !! c).
Proof.
  intros Hg H. apply matchPattern_returns in H as [_ H].
  pose proof (matchPatternImpl_grows p Hg v s) as G. rewrite H in G.
  cbn [outcomeGrows] in G. split.
  - intros c z Hc. rewrite (G c); [exact Hc | left; eauto].
  - intros c Hc. apply G. right. exact Hc.
Qed.

Lemma X8_match_commits_once_witness :
  (forall c z, ({[ 0%nat := 1 ]} : Store) !! c = Some z ->
               ({[ 0%nat := 1; 1%nat := 2 ]} : Store) !! c = Some z)
  /\ (forall c, ~ In c (cells (PDs [POoo PWildcard; PId 0; PId 1])) ->
                ({[ 0%nat := 1; 1%nat := 2 ]} : Store) !! c
                = ({[ 0%nat := 1 ]} : Store) !! c).
Proof.
  apply (X8_match_commits_once (VTuple [VInt 1; VInt 2])
           (PDs [POoo PWildcard; PId 0; PId 1]) {[ 0%nat := 1 ]} true).
  - repeat constructor.
  - vm_compute. reflexivity.
Defined.

(** ** Two rest elements in one sequence *)

Lemma oooAll_all_true s q l :
  Forall (fun v => matchPattern v q s = Ret true s) l ->
  oooAll (matchPatternImpl q) l s = Ret true s.
Proof.
  induction 1 as [|v l Hv _ IH]; cbn [oooAll]; [reflexivity|].
  apply matchPattern_returns in Hv as [_ Hv]. unfold andAlso. rewrite Hv. exact IH.
Qed.

Lemma trailing_rest_pure s q l :
  readsOnly s q ->
  tryOooMatch matchPatternImpl [POoo q] l s = Ret true s
  <-> Forall (fun v => matchPattern v q s = Ret true s) l.
Proof.
  intros Hq. split.
  - intros H.
    pose proof (tryOooMatchImpl_search s q (tryOooMatch matchPatternImpl []) l
                  (readsOnly_pure s q Hq) (fun vs => pureAt_Ret s _)) as Hs.
    cbv zeta in Hs.
    change (tryOooMatch matchPatternImpl [POoo q] l s)
      with (tryOooMatchImpl matchPatternImpl (POoo q)
              (tryOooMatch matchPatternImpl []) l (seq 0 (length l + 1)) s) in H.
    rewrite H in Hs.
    destruct Hs as [Hs|[[_ (K & HK & Hall & Hr)]|[Hs _]]]; try discriminate.
    cbn [tryOooMatch] in Hr. injection Hr as Hr.
    apply bool_decide_eq_true in Hr. rewrite length_drop in Hr.
    rewrite take_ge in Hall by lia. exact Hall.
  - intros Hall. rewrite tryOooMatch_trailing.
    + apply oooAll_all_true, Hall.
    + apply ooo_static_check. eapply Forall_impl; [exact Hall|].
      intros v Hv. apply matchPattern_returns in Hv as [Hd _]. exact Hd.
Qed.

(** X9.  Two rest elements in one sequence are resolved, not rejected:
    on sub-patterns that write no cell, [ds(ooo(q1), ooo(q2))] returns
    true exactly when the tuple splits into a run of values that match
    [q1] followed by a run of values that match [q2], and false
    otherwise. *)
Theorem X9_two_rest_elements q1 q2 vs s :
  readsOnly s q1 -> readsOnly s q2 ->
  Instantiates (PDs [POoo q1; POoo q2]) (typeOf (VTuple vs)) = true ->
  (matchPattern (VTuple vs) (PDs [POoo q1; POoo q2]) s = Ret true s
   <-> exists K, (K <= length vs)%nat
                 /\ Forall (fun v => matchPattern v q1 s = Ret true s) (take K vs)
                 /\ Forall (fun v => matchPattern v q2 s = Ret true s) (drop K vs))
  /\ ((~ exists K, (K <= length vs)%nat
                   /\ Forall (fun v => matchPattern v q1 s = Ret true s) (take K vs)
                   /\ Forall (fun v => matchPattern v q2 s = Ret true s) (drop K vs)) ->
      matchPattern (VTuple vs) (PDs [POoo q1; POoo q2]) s = Ret false s).
Proof.
  intros H1 H2 Hinst.
  pose proof (matchPattern_compiled _ _ s Hinst) as (b & s' & Hret).
  assert (Hrest : forall l, pureAt s (tryOooMatch matchPatternImpl [POoo q2] l)).
  { intros l. cbn [tryOooMatch isOoo]. apply tryOooMatchImpl_pure.
    - intros v. apply readsOnly_pure, H2.
    - intros l'. apply pureAt_Ret. }
  pose proof (tryOooMatchImpl_search s q1 (tryOooMatch matchPatternImpl [POoo q2])
                vs (readsOnly_pure s q1 H1) Hrest) as Hs.
  cbv zeta in Hs.
  assert (E : matchPattern (VTuple vs) (PDs [POoo q1; POoo q2]) s
              = tryOooMatchImpl matchPatternImpl (POoo q1)
                  (tryOooMatch matchPatternImpl [POoo q2]) vs
                  (seq 0 (length vs + 1)) s)
    by (rewrite matchPattern_defined by reflexivity; reflexivity).
  rewrite <- E in Hs. rewrite Hret in Hs |- *.
  destruct Hs as [Hs|[[Hs (K & HK & Hall & Hr)]|[Hs Hn]]]; [discriminate| |].
  - injection Hs as -> ->. apply trailing_rest_pure in Hr; [|exact H2]. split.
    + split; [intros _; exists K; auto | reflexivity].
    + intros Hno. exfalso. apply Hno. exists K. auto.
  - injection Hs as -> ->. split; [|reflexivity]. split; [discriminate|].
    intros (K & HK & Hall & Hr). exfalso. apply (Hn K).
    split; [exact HK|]. split; [exact Hall|].
    apply trailing_rest_pure; assumption.
Qed.

Lemma X9_two_rest_elements_witness :
  matchPattern (VTuple [VInt 2; VInt 4; VInt 5; VInt 5])
    (PDs [POoo (PMeet isEven); POoo (PLit 5)]) ∅ = Ret true ∅.
Proof.
  apply (proj1 (X9_two_rest_elements (PMeet isEven) (PLit 5)
                  [VInt 2; VInt 4; VInt 5; VInt 5] ∅
                  ltac:(constructor) ltac:(constructor)
                  ltac:(vm_compute; reflexivity))).
  exists 2%nat. split; [simpl; lia|].
  split; repeat constructor.
Defined.

(** ** Too few values for a sequence with a rest element *)

Lemma oooFold_never_true matchp head (rest : list Value -> Comp) m :
  (forall K s s', rest (drop K m) s <> Ret true s') ->
  forall Is s s', oooFold matchp head rest Is m s <> Ret true s'.
Proof.
  intros Hrest. induction Is as [|K tl IH]; intros s s'; cbn [oooFold].
  - discriminate.
  - unfold orElse.
    destruct (tryOooMatchImplHelper matchp head rest K m s) as [[|] s1|s1|] eqn:Hh;
      try discriminate; [|apply IH].
    exfalso. destruct K as [|i]; cbn [tryOooMatchImplHelper] in Hh.
    + exact (Hrest 0%nat s s1 Hh).
    + destruct (MatchFuncDefined head _); [|discriminate].
      destruct (m !! i); [|discriminate].
      destruct (matchPatternImplSingle matchp head v s) as [[|] s2|s2|];
        try discriminate.
      exact (Hrest (S i) s2 s1 Hh).
Qed.

Lemma tupleMatchDefined_prefix_shorter q post pre : forall vs,
  Forall (fun p => isOoo p = false) pre ->
  (length vs < length pre)%nat ->
  MatchFuncDefined (PDs (pre ++ POoo q :: post)) (typeOf (VTuple vs)) = false.
Proof.
  induction pre as [|p tl IH]; intros vs Hno Hlen; [simpl in Hlen; lia|].
  inversion Hno as [|? ? Hp Htl]; subst.
  destruct vs as [|v0 vs].
  - cbn [app MatchFuncDefined typeOf map tupleMatchDefined]. rewrite Hp. reflexivity.
  - specialize (IH vs Htl ltac:(simpl in Hlen; lia)).
    cbn [app MatchFuncDefined typeOf map tupleMatchDefined] in *.
    rewrite Hp, IH. apply andb_false_r.
Qed.

(** X10.  A sequence with one rest element needs at least as many values
    as it has other patterns: with fewer it never returns true, whatever
    the patterns capture, and with fewer values than there are patterns
    before the rest element no rule is defined at all. *)
Theorem X10_rest_sequence_too_short pre q post vs s :
  Forall (fun p => isOoo p = false) pre ->
  Forall (fun p => isOoo p = false) post ->
  ((length vs < length pre + length post)%nat ->
     forall s', matchPattern (VTuple vs) (PDs (pre ++ POoo q :: post)) s
                <> Ret true s')
  /\ ((length vs < length pre)%nat ->
        matchPattern (VTuple vs) (PDs (pre ++ POoo q :: post)) s = NoRule).
Proof.
  intros Hpre Hpost. split.
  - intros Hlen s' H. apply matchPattern_returns in H as [Hdef H].
    cbn [matchPatternImpl] in H.
    destruct (tupleMatchImpl_prefix q post pre vs s Hpre Hdef) as [Hl E].
    rewrite E in H. unfold andAlso in H.
    destruct (fixedMatch pre (take (length pre) vs) s) as [[|] s1|s1|];
      try discriminate.
    cbn [tryOooMatch isOoo] in H. unfold tryOooMatchImpl in H.
    destruct (oooFold _ _ _ _ _ s1) as [[|] s2|s2|] eqn:Hf; try discriminate.
    revert Hf. apply oooFold_never_true. intros K s3 s4 Hr.
    apply tryOooMatch_fixedMatch in Hr; [|exact Hpost].
    apply fixedMatch_length in Hr. rewrite !length_drop in Hr. lia.
  - intros Hlen. apply matchPattern_undefined.
    apply tupleMatchDefined_prefix_shorter; assumption.
Qed.

Lemma X10_rest_sequence_too_short_witness :
  (length [VInt 1] < length (@nil Pattern) + length [PId 0; PId 1])%nat
  /\ matchPattern (VTuple [VInt 1])
       (PDs ([] ++ POoo PWildcard :: [PId 0; PId 1])) ∅
     <> Ret true {[ 0%nat := 1 ]}.
Proof.
  split; [simpl; lia|].
  apply (proj1 (X10_rest_sequence_too_short [] PWildcard [PId 0; PId 1] [VInt 1] ∅
                  ltac:(repeat constructor) ltac:(repeat constructor))).
  simpl. lia.
Defined.

(** ** Destructuring into captures *)

Lemma ids_defined cs : forall zs,
  length zs = length cs ->
  MatchFuncDefined (PDs (map PId cs)) (typeOf (VTuple (map VInt zs))) = true.
Proof.
  induction cs as [|c cs IH]; intros [|z zs] Hlen; try discriminate; [reflexivity|].
  specialize (IH zs ltac:(simpl in Hlen; lia)).
  cbn [map MatchFuncDefined typeOf tupleMatchDefined isOoo isScalar andb] in *.
  exact IH.
Qed.

Lemma ids_cells cs c : In c (flat_map cells (map PId cs)) <-> In c cs.
Proof.
  induction cs as [|c0 cs IH]; [reflexivity|].
  cbn [map flat_map cells app In]. rewrite IH. reflexivity.
Qed.

Lemma tuple_of_ids cs : forall zs s0,
  NoDup cs -> length zs = length cs ->
  (forall c, c ∈ cs -> s0 !! c = None) ->
  exists s',
    tupleMatchImpl matchPatternImpl (map PId cs) (map VInt zs) s0 = Ret true s'
    /\ (forall i c z, cs !! i = Some c -> zs !! i = Some z -> s' !! c = Some z)
    /\ (forall c, c ∉ cs -> s' !! c = s0 !! c).
Proof.
  induction cs as [|c cs IH]; intros [|z zs] s0 Hnd Hlen Hfresh; try discriminate.
  - exists s0. split; [reflexivity|]. split; [intros [|i] ? ? H; discriminate | auto].
  - apply NoDup_cons in Hnd as [Hc Hnd].
    destruct (IH zs (<[c := z]> s0) Hnd ltac:(simpl in Hlen; lia)) as (s' & E & Hb & Hf).
    { intros c' Hc'. rewrite lookup_insert_ne by (intros ->; contradiction).
      apply Hfresh. right. exact Hc'. }
    exists s'. cbn [map tupleMatchImpl isOoo matchPatternImpl]. unfold andAlso.
    rewrite (Hfresh c) by left. split; [exact E|]. split.
    + intros [|i] c' z' Hci Hzi; cbn in Hci, Hzi.
      * injection Hci as <-. injection Hzi as <-.
        rewrite (Hf c Hc). apply lookup_insert_eq.
      * eapply Hb; eassumption.
    + intros c' Hc'. apply not_elem_of_cons in Hc' as [Hne Hc'].
      rewrite (Hf c' Hc'). apply lookup_insert_ne. auto.
Qed.

(** X11.  Destructuring binds: an arm whose pattern is a sequence of
    captures with distinct cells, matched through [matchValue] against as
    many values, returns true whatever the cells held before, and
    afterwards [Id::value] of each capture is the value at its
    position. *)
Theorem X11_destructuring_binds cs zs s :
  NoDup cs -> length zs = length cs ->
  exists s',
    matchValue (VTuple (map VInt zs)) (PDs (map PId cs)) s = Ret true s'
    /\ forall i c z, cs !! i = Some c -> zs !! i = Some z -> value c s' = Some z.
Proof.
  intros Hnd Hlen. unfold matchValue.
  rewrite matchPattern_defined by (apply ids_defined; exact Hlen).
  cbn [matchPatternImpl].
  destruct (tuple_of_ids cs zs (resetId (PDs (map PId cs)) s) Hnd Hlen)
    as (s' & E & Hb & _).
  { intros c Hc. apply resetId_lookup. cbn [cells]. apply ids_cells.
    apply list_elem_of_In. exact Hc. }
  exists s'. split; [exact E | exact Hb].
Qed.

Lemma X11_destructuring_binds_witness :
  exists s',
    matchValue (VTuple (map VInt [10; 20])) (PDs (map PId [0; 1]%nat))
      {[ 0%nat := 99 ]} = Ret true s'
    /\ forall i c z, [0; 1]%nat !! i = Some c -> [10; 20] !! i = Some z ->
                     value c s' = Some z.
Proof.
  apply (X11_destructuring_binds [0; 1]%nat [10; 20] {[ 0%nat := 99 ]}).
  - apply NoDup_cons. split; [intros H; apply list_elem_of_In in H; simpl in H;
      destruct H as [H|[]]; discriminate|].
    apply NoDup_cons. split; [intros H; apply list_elem_of_In in H; destruct H|].
    apply NoDup_nil. exact Logic.I.
  - reflexivity.
Defined.

(** ** One capture at several positions *)

Lemma same_cell_committed c z zs : forall s0,
  s0 !! c = Some z ->
  tupleMatchImpl matchPatternImpl (map PId (replicate (length zs) c))
    (map VInt zs) s0
  = Ret (forallb (Z.eqb z) zs) s0.
Proof.
  induction zs as [|z' zs IH]; intros s0 Hc; [reflexivity|].
  cbn [length replicate map tupleMatchImpl isOoo matchPatternImpl forallb].
  unfold andAlso. rewrite Hc. destruct (z =? z'); [apply IH, Hc | reflexivity].
Qed.

Lemma resetId_same_cell c n s :
  resetId (PDs (map PId (replicate (S n) c))) s = delete c s.
Proof.
  apply map_eq. intros c'. rewrite resetId_decide. cbn [cells].
  destruct (in_dec Nat.eq_dec c' (flat_map cells (map PId (replicate (S n) c))))
    as [Hin|Hout].
  - apply ids_cells, list_elem_of_In, elem_of_replicate in Hin as [-> _].
    symmetry. apply lookup_delete_eq.
  - symmetry. apply lookup_delete_ne. intros <-. apply Hout.
    apply ids_cells. left. reflexivity.
Qed.

(** X12.  A capture used at every position of a sequence makes the arm
    match exactly the tuples whose values are all equal: through
    [matchValue] the result is whether every later value equals the
    first, and the cell holds the first value afterwards, whatever it
    held before. *)
Theorem X12_repeated_capture c z zs s :
  matchValue (VTuple (map VInt (z :: zs)))
    (PDs (map PId (replicate (S (length zs)) c))) s
  = Ret (forallb (Z.eqb z) zs) (<[c := z]> s).
Proof.
  unfold matchValue.
  rewrite matchPattern_defined
    by (apply ids_defined; cbn [length]; rewrite length_replicate; reflexivity).
  rewrite resetId_same_cell.
  cbn [matchPatternImpl replicate map tupleMatchImpl isOoo]. unfold andAlso.
  rewrite lookup_delete_eq. rewrite insert_delete_eq.
  apply same_cell_committed. apply lookup_insert_eq.
Qed.
